(** * Verification of [lexical_analyzer.py]

    A shallow embedding of [sem6/compiler design/lexical_analyzer.py]:
    the [TokenType] enumeration, the [Token] record, the table
    [token_specs], the combined pattern with the backtracking semantics of
    Python's [re] module, [finditer], and the method
    [LexicalAnalyzer.analyze] as a state transformer on the instance.

    Source text is a [list ascii]: characters are the code points 0..255.
    On this range the class [\d] is exactly [0-9]. *)

From Stdlib Require Import String Ascii Bool Arith Lia NArith ZArith.
From Stdlib Require Import DecimalString DecimalNat DecimalZ List Sorted.
Import ListNotations.
Open Scope list_scope.
Open Scope nat_scope.

(** A Python [str] value written as a literal. *)
Definition str (s : string) : list ascii := list_ascii_of_string s.

(* ================================================================= *)
(** ** Token types and tokens *)

Inductive TokenType : Type :=
| KEYWORD | IDENTIFIER | INTEGER | FLOAT | STRING
| PLUS | MINUS | MULTIPLY | DIVIDE | ASSIGN | EQUAL | NOT_EQUAL
| LESS_THAN | GREATER_THAN | LESS_EQUAL | GREATER_EQUAL
| LPAREN | RPAREN | LBRACE | RBRACE | SEMICOLON | COMMA
| COMMENT | WHITESPACE | EOF | UNKNOWN.

(** The members of the enumeration by name: [TokenType[name]]. *)
Definition TokenType_members : list (string * TokenType) :=
  [ ("KEYWORD", KEYWORD); ("IDENTIFIER", IDENTIFIER); ("INTEGER", INTEGER);
    ("FLOAT", FLOAT); ("STRING", STRING); ("PLUS", PLUS); ("MINUS", MINUS);
    ("MULTIPLY", MULTIPLY); ("DIVIDE", DIVIDE); ("ASSIGN", ASSIGN);
    ("EQUAL", EQUAL); ("NOT_EQUAL", NOT_EQUAL); ("LESS_THAN", LESS_THAN);
    ("GREATER_THAN", GREATER_THAN); ("LESS_EQUAL", LESS_EQUAL);
    ("GREATER_EQUAL", GREATER_EQUAL); ("LPAREN", LPAREN); ("RPAREN", RPAREN);
    ("LBRACE", LBRACE); ("RBRACE", RBRACE); ("SEMICOLON", SEMICOLON);
    ("COMMA", COMMA); ("COMMENT", COMMENT); ("WHITESPACE", WHITESPACE);
    ("EOF", EOF); ("UNKNOWN", UNKNOWN) ]%string.

Fixpoint lookup {A : Type} (name : string) (tbl : list (string * A))
  : option A :=
  match tbl with
  | [] => None
  | (n, v) :: tbl' => if String.eqb name n then Some v else lookup name tbl'
  end.

(** [TokenType[name]]; [None] stands for [KeyError]. *)
Definition TokenType_getitem (name : string) : option TokenType :=
  lookup name TokenType_members.

Record Token : Type := mkToken {
  type : TokenType;
  value : list ascii;
  line : nat;
  column : nat
}.

(* ================================================================= *)
(** ** Character classes of the patterns *)

(** The double quote and the newline characters. *)
Definition dquote : ascii := "034".
Definition nl : ascii := "010".

Definition code (c : ascii) : N := N_of_ascii c.

Definition in_range (lo hi : ascii) (c : ascii) : bool :=
  (code lo <=? code c)%N && (code c <=? code hi)%N.

(** [\d] *)
Definition is_digit (c : ascii) : bool := in_range "0" "9" c.

(** [.] without DOTALL: anything but a newline. *)
Definition is_dot (c : ascii) : bool := negb (Ascii.eqb c nl).

(** [\s] on code points below 256, and its complement [\S]. *)
Definition is_space (c : ascii) : bool :=
  in_range "009" "013" c || in_range "028" "032" c
  || Ascii.eqb c "133" || Ascii.eqb c "160".
Definition is_nonspace (c : ascii) : bool := negb (is_space c).

(** [[\s\S]] *)
Definition is_any (c : ascii) : bool := is_space c || is_nonspace c.

(** The class of every character but the double quote. *)
Definition is_not_quote (c : ascii) : bool := negb (Ascii.eqb c dquote).

(** [[a-zA-Z_]] *)
Definition is_ident_start (c : ascii) : bool :=
  in_range "a" "z" c || in_range "A" "Z" c || Ascii.eqb c "_".

(** [[a-zA-Z0-9_]] *)
Definition is_ident_char (c : ascii) : bool :=
  in_range "a" "z" c || in_range "A" "Z" c || in_range "0" "9" c
  || Ascii.eqb c "_".

(** [[ \t]] *)
Definition is_blank (c : ascii) : bool :=
  Ascii.eqb c " " || Ascii.eqb c "009".

(* ================================================================= *)
(** ** Regular expressions and Python's backtracking matcher

    The fragment of [re] syntax used by [token_specs]: literals, classes,
    concatenation, ordered alternation, and the quantifiers [*], [+]
    (greedy) and [*?] (lazy), which the table applies to single
    character classes only. *)

Inductive regex : Type :=
| Lit (c : ascii)
| Class (p : ascii -> bool)
| Cat (r1 r2 : regex)
| Or (r1 r2 : regex)
| Star (p : ascii -> bool)
| Plus (p : ascii -> bool)
| LazyStar (p : ascii -> bool).

(** The matcher is written in continuation-passing style: [k n rest] is
    what remains to be matched once [n] characters have been consumed
    and [rest] is left; [None] makes the matcher backtrack. *)
Definition cont : Type := nat -> list ascii -> option nat.

(** Greedy [p*]: the longest run first, giving characters back one at a
    time while the continuation fails. *)
Fixpoint greedy_star (p : ascii -> bool) (k : cont) (n : nat)
    (s : list ascii) : option nat :=
  match s with
  | c :: s' =>
      if p c then
        match greedy_star p k (S n) s' with
        | Some r => Some r
        | None => k n s
        end
      else k n s
  | [] => k n s
  end.

(** Lazy [p*?]: the shortest run first. *)
Fixpoint lazy_star (p : ascii -> bool) (k : cont) (n : nat)
    (s : list ascii) : option nat :=
  match k n s with
  | Some r => Some r
  | None =>
      match s with
      | c :: s' => if p c then lazy_star p k (S n) s' else None
      | [] => None
      end
  end.

Fixpoint exec (r : regex) (k : cont) (n : nat) (s : list ascii)
  : option nat :=
  match r with
  | Lit c =>
      match s with
      | x :: s' => if Ascii.eqb x c then k (S n) s' else None
      | [] => None
      end
  | Class p =>
      match s with
      | x :: s' => if p x then k (S n) s' else None
      | [] => None
      end
  | Cat r1 r2 => exec r1 (exec r2 k) n s
  | Or r1 r2 =>
      match exec r1 k n s with
      | Some e => Some e
      | None => exec r2 k n s
      end
  | Star p => greedy_star p k n s
  | Plus p =>
      match s with
      | x :: s' => if p x then greedy_star p k (S n) s' else None
      | [] => None
      end
  | LazyStar p => lazy_star p k n s
  end.

(** The end of the whole pattern: accept, reporting the match length. *)
Definition accept : cont := fun n _ => Some n.

(* ================================================================= *)
(** ** The instance's constant tables *)

Definition keywords : list (list ascii) :=
  map str [ "if"; "else"; "while"; "for"; "int"; "float";
            "return"; "void"; "main"; "print"; "class"; "public" ]%string.

Fixpoint str_eqb (a b : list ascii) : bool :=
  match a, b with
  | [], [] => true
  | x :: a', y :: b' => Ascii.eqb x y && str_eqb a' b'
  | _, _ => false
  end.

(** [token_value in self.keywords] *)
Definition in_keywords (v : list ascii) : bool :=
  existsb (str_eqb v) keywords.

(** [self.token_specs], in the order of the source. *)
Definition token_specs : list (string * regex) :=
  [ ("COMMENT",
      Or (Cat (Lit "/") (Cat (Lit "/") (Star is_dot)))
         (Cat (Lit "/") (Cat (Lit "*")
            (Cat (LazyStar is_any) (Cat (Lit "*") (Lit "/"))))));
    ("FLOAT", Cat (Plus is_digit) (Cat (Lit ".") (Plus is_digit)));
    ("INTEGER", Plus is_digit);
    ("STRING", Cat (Lit dquote) (Cat (Star is_not_quote) (Lit dquote)));
    ("IDENTIFIER", Cat (Class is_ident_start) (Star is_ident_char));
    ("GREATER_EQUAL", Cat (Lit ">") (Lit "="));
    ("LESS_EQUAL", Cat (Lit "<") (Lit "="));
    ("EQUAL", Cat (Lit "=") (Lit "="));
    ("NOT_EQUAL", Cat (Lit "!") (Lit "="));
    ("ASSIGN", Lit "=");
    ("PLUS", Lit "+");
    ("MINUS", Lit "-");
    ("MULTIPLY", Lit "*");
    ("DIVIDE", Lit "/");
    ("LESS_THAN", Lit "<");
    ("GREATER_THAN", Lit ">");
    ("LPAREN", Lit "(");
    ("RPAREN", Lit ")");
    ("LBRACE", Lit "{");
    ("RBRACE", Lit "}");
    ("SEMICOLON", Lit ";");
    ("COMMA", Lit ",");
    ("WHITESPACE", Plus is_blank);
    ("NEWLINE", Lit nl) ]%string.

(** [self.pattern]: the alternation [(?P<name>pattern)|...] of the
    table's rows.  Nothing follows the alternation, so the first row
    that matches at all wins, with the first match its own
    backtracking finds. *)
Fixpoint first_match (specs : list (string * regex)) (s : list ascii)
  : option (string * nat) :=
  match specs with
  | [] => None
  | (name, r) :: specs' =>
      match exec r accept 0 s with
      | Some n => Some (name, n)
      | None => first_match specs' s
      end
  end.

(** [self.pattern.match(text, pos)] as a function of the text from
    [pos] on: the name of the group that matched ([lastgroup]) and the
    length of the match. *)
Definition match_at (s : list ascii) : option (string * nat) :=
  first_match token_specs s.

(* ================================================================= *)
(** ** [finditer] *)

Record Match : Type := mkMatch {
  lastgroup : string;
  start : nat;
  group : list ascii
}.

Definition m_end (m : Match) : nat := start m + length (group m).

(** The scan of [finditer] over the text [s] that begins at offset
    [pos]: a match is yielded and the scan resumes at its end; where
    nothing matches the scan moves on by one character.  [fuel] bounds
    the number of iterations. *)
Fixpoint finditer_from (fuel : nat) (pos : nat) (s : list ascii)
  : list Match :=
  match fuel with
  | 0 => []
  | S fuel' =>
      match match_at s with
      | Some (name, n) =>
          mkMatch name pos (firstn n s)
            :: finditer_from fuel' (pos + n) (skipn n s)
      | None =>
          match s with
          | [] => []
          | _ :: s' => finditer_from fuel' (S pos) s'
          end
      end
  end.

Definition finditer (source : list ascii) : list Match :=
  finditer_from (S (length source)) 0 source.

(* ================================================================= *)
(** ** The analyzer *)

Record LexicalAnalyzer : Type := mkLexer {
  source : list ascii;
  position : nat;
  cur_line : nat;
  cur_column : nat;
  tokens : list Token
}.

(** [LexicalAnalyzer.__init__] *)
Definition init (source_code : list ascii) : LexicalAnalyzer :=
  mkLexer source_code 0 1 1 [].

(** [current_char] *)
Definition current_char (self : LexicalAnalyzer) : option ascii :=
  if position self <? length (source self)
  then nth_error (source self) (position self)
  else None.

Definition set_column (self : LexicalAnalyzer) (c : nat) : LexicalAnalyzer :=
  mkLexer (source self) (position self) (cur_line self) c (tokens self).

Definition set_line (self : LexicalAnalyzer) (l : nat) : LexicalAnalyzer :=
  mkLexer (source self) (position self) l (cur_column self) (tokens self).

Definition append_token (self : LexicalAnalyzer) (t : Token)
  : LexicalAnalyzer :=
  mkLexer (source self) (position self) (cur_line self) (cur_column self)
          (tokens self ++ [t]).

(** The token built for a match that is neither whitespace nor a
    newline, at the current line and column. *)
Definition make_token (token_type : string) (token_value : list ascii)
    (line column : nat) : Token :=
  if String.eqb token_type "IDENTIFIER" then
    if in_keywords token_value
    then mkToken KEYWORD token_value line column
    else mkToken IDENTIFIER token_value line column
  else
    match TokenType_getitem token_type with
    | Some ty => mkToken ty token_value line column
    | None => mkToken UNKNOWN token_value line column
    end.

(** One iteration of the [for match in ...] loop of [analyze]. *)
Definition loop_body (self : LexicalAnalyzer) (m : Match)
  : LexicalAnalyzer :=
  let token_type := lastgroup m in
  let token_value := group m in
  if String.eqb token_type "WHITESPACE" then
    set_column self (cur_column self + length token_value)
  else if String.eqb token_type "NEWLINE" then
    set_column (set_line self (cur_line self + 1)) 1
  else
    let token :=
      make_token token_type token_value (cur_line self) (cur_column self) in
    let self' := append_token self token in
    set_column self' (cur_column self' + length token_value).

(** [analyze]: the instance after the call.  The list the call returns
    is [self.tokens] itself, that is [tokens] of the result. *)
Definition analyze (self : LexicalAnalyzer) : LexicalAnalyzer :=
  let self' := fold_left loop_body (finditer (source self)) self in
  append_token self' (mkToken EOF [] (cur_line self') (cur_column self')).

(** Tokenizing a text with a fresh instance. *)
Definition tokenize (source_code : list ascii) : list Token :=
  tokens (analyze (init source_code)).

(* ================================================================= *)
(** ** The language of a pattern *)

Inductive matches : regex -> list ascii -> Prop :=
| M_Lit : forall c, matches (Lit c) [c]
| M_Class : forall (p : ascii -> bool) c, p c = true -> matches (Class p) [c]
| M_Cat : forall r1 r2 a b,
    matches r1 a -> matches r2 b -> matches (Cat r1 r2) (a ++ b)
| M_OrL : forall r1 r2 a, matches r1 a -> matches (Or r1 r2) a
| M_OrR : forall r1 r2 a, matches r2 a -> matches (Or r1 r2) a
| M_Star : forall p a, forallb p a = true -> matches (Star p) a
| M_Plus : forall p c a,
    p c = true -> forallb p a = true -> matches (Plus p) (c :: a)
| M_LazyStar : forall p a, forallb p a = true -> matches (LazyStar p) a.

(** Patterns that can match the empty string. *)
Fixpoint nullable (r : regex) : bool :=
  match r with
  | Lit _ | Class _ | Plus _ => false
  | Cat r1 r2 => nullable r1 && nullable r2
  | Or r1 r2 => nullable r1 || nullable r2
  | Star _ | LazyStar _ => true
  end.

(** What the matcher found: the text splits into the lexeme, which is
    in the language of the pattern, and the rest, on which the
    continuation succeeded. *)
Definition found (r : regex) (k : cont) (n : nat) (s : list ascii)
    (e : nat) : Prop :=
  exists lex rest,
    s = lex ++ rest /\ matches r lex /\ k (n + length lex) rest = Some e.

(* ================================================================= *)
(** ** Vocabulary of the statements *)

(** The lexeme of a match of the group [name]: it is in the language
    of the group's row and is not empty. *)
Definition match_of (name : string) (lex : list ascii) : Prop :=
  exists r, In (name, r) token_specs /\ matches r lex /\ lex <> [].

(** The scan of the text [s] that begins at offset [pos]. *)
Definition scan (pos : nat) (s : list ascii) : list Match :=
  finditer_from (S (length s)) pos s.

(** Matches for which the loop creates no token. *)
Definition skipped (m : Match) : bool :=
  String.eqb (lastgroup m) "WHITESPACE" || String.eqb (lastgroup m) "NEWLINE".

(** The counters after one iteration. *)
Definition advance (lc : nat * nat) (m : Match) : nat * nat :=
  if String.eqb (lastgroup m) "WHITESPACE" then
    (fst lc, snd lc + length (group m))
  else if String.eqb (lastgroup m) "NEWLINE" then (fst lc + 1, 1)
  else (fst lc, snd lc + length (group m)).

(** The counters after the loop. *)
Definition final_pos (lc : nat * nat) (ms : list Match) : nat * nat :=
  fold_left advance ms lc.

(** The tokens the loop appends, counters starting at [lc]. *)
Fixpoint emitted (lc : nat * nat) (ms : list Match) : list Token :=
  match ms with
  | [] => []
  | m :: ms' =>
      if skipped m then emitted (advance lc m) ms'
      else make_token (lastgroup m) (group m) (fst lc) (snd lc)
             :: emitted (advance lc m) ms'
  end.

(** [(self.line, self.column)] *)
Definition counters (self : LexicalAnalyzer) : nat * nat :=
  (cur_line self, cur_column self).

(** The input ["int x ; // trailing\n"]. *)
Definition C1_input : list ascii := str "int x ; // trailing" ++ [nl].

(** The text accounted for by a scan: every match is either skipped
    (whitespace, newline) or the lexeme of the token created for it, so
    the lexemes and the skipped texts, in order, are the texts of the
    matches. *)
Definition reconstruct (src : list ascii) : list ascii :=
  concat (map group (finditer src)).

(** The instance after the loop has created the token [t] of a match of
    length [n]. *)
Definition after_token (self : LexicalAnalyzer) (t : Token) (n : nat)
  : LexicalAnalyzer :=
  set_column (append_token self t) (cur_column self + n).

(** From whatever state the scanner is in, at text that begins with
    [lex] it creates one token of type [ty] and lexeme [lex] and goes
    on with the text after it. *)
Definition lexes_first (lex : list ascii) (ty : TokenType) : Prop :=
  forall rest pos self,
    fold_left loop_body (scan pos (lex ++ rest)) self
    = fold_left loop_body (scan (pos + length lex) rest)
        (after_token self
           (mkToken ty lex (cur_line self) (cur_column self)) (length lex)).

(** Whether the text holds the two characters that close a block
    comment. *)
Fixpoint closes (s : list ascii) : bool :=
  match s with
  | [] => false
  | c :: s' =>
      (Ascii.eqb c "*"
       && match s' with x :: _ => Ascii.eqb x "/" | [] => false end)
      || closes s'
  end.

(** A complete string literal: the quotes and, between them, no quote. *)
Definition complete_string (lex : list ascii) : Prop :=
  exists body,
    lex = dquote :: body ++ [dquote] /\ forallb is_not_quote body = true.

(** A line comment, or a block comment with its closing delimiter. *)
Definition complete_comment (lex : list ascii) : Prop :=
  (exists body, lex = str "//" ++ body /\ forallb is_dot body = true)
  \/ (exists body, lex = str "/*" ++ body ++ str "*/").

(** Token [a] lies before token [b]: on an earlier line, or on the same
    line at a smaller column and with its lexeme over before [b]
    begins. *)
Definition tok_before (a b : Token) : Prop :=
  line a < line b
  \/ (line a = line b /\ column a < column b
      /\ column a + length (value a) <= column b).

(** Counters in lexicographic order. *)
Definition le_pos (a b : nat * nat) : Prop :=
  fst a < fst b \/ (fst a = fst b /\ snd a <= snd b).

(** The match covers the characters [start m] up to [m_end m] of the
    source, and these are its text. *)
Definition span_ok (src : list ascii) (m : Match) : Prop :=
  start m < m_end m /\ m_end m <= length src
  /\ group m = firstn (length (group m)) (skipn (start m) src).

(** The range of match [a] is over before that of [b] begins. *)
Definition span_before (a b : Match) : Prop := m_end a <= start b.

(** The matches the loop creates a token for. *)
Definition token_matches (src : list ascii) : list Match :=
  filter (fun m => negb (skipped m)) (finditer src).

(** Every token the loop creates begins at or after the counters the
    loop started with, ends at or before the counters it finishes with,
    and has a lexeme that is not empty. *)
Definition within (lo hi : nat * nat) (t : Token) : Prop :=
  le_pos lo (line t, column t)
  /\ le_pos (line t, column t + length (value t)) hi
  /\ 1 <= length (value t).

(** A match without its offset: what the loop of [analyze] reads. *)
Definition name_text (m : Match) : string * list ascii :=
  (lastgroup m, group m).

(** The kind and the lexeme of a token, without its position. *)
Definition kind_value (t : Token) : TokenType * list ascii :=
  (type t, value t).

(* ================================================================= *)
(** ** [Token.__str__] and [print_tokens] *)

(** [self.type.value]: every member's value is its own name. *)
Definition TokenType_value (ty : TokenType) : string :=
  match ty with
  | KEYWORD => "KEYWORD" | IDENTIFIER => "IDENTIFIER" | INTEGER => "INTEGER"
  | FLOAT => "FLOAT" | STRING => "STRING" | PLUS => "PLUS"
  | MINUS => "MINUS" | MULTIPLY => "MULTIPLY" | DIVIDE => "DIVIDE"
  | ASSIGN => "ASSIGN" | EQUAL => "EQUAL" | NOT_EQUAL => "NOT_EQUAL"
  | LESS_THAN => "LESS_THAN" | GREATER_THAN => "GREATER_THAN"
  | LESS_EQUAL => "LESS_EQUAL" | GREATER_EQUAL => "GREATER_EQUAL"
  | LPAREN => "LPAREN" | RPAREN => "RPAREN" | LBRACE => "LBRACE"
  | RBRACE => "RBRACE" | SEMICOLON => "SEMICOLON" | COMMA => "COMMA"
  | COMMENT => "COMMENT" | WHITESPACE => "WHITESPACE" | EOF => "EOF"
  | UNKNOWN => "UNKNOWN"
  end%string.

(** [str(n)] for an integer: decimal digits, a minus sign in front of a
    negative one. *)
Definition str_of_nat (n : nat) : list ascii :=
  str (NilEmpty.string_of_uint (Nat.to_uint n)).

Definition str_of_Z (z : Z) : list ascii :=
  str (NilEmpty.string_of_int (Z.to_int z)).

(** [Token.__str__] *)
Definition Token_str (t : Token) : list ascii :=
  str "<" ++ str (TokenType_value (type t)) ++ str ", '" ++ value t
    ++ str "', Line:" ++ str_of_nat (line t)
    ++ str ", Col:" ++ str_of_nat (column t) ++ str ">".

(** The format specification [:<width]: the text, then spaces up to
    the width; a longer text is left as it is. *)
Definition ljust (width : nat) (s : list ascii) : list ascii :=
  s ++ repeat " "%char (width - length s).

Definition is_EOF (ty : TokenType) : bool :=
  match ty with EOF => true | _ => false end.

(** The text [print_tokens] prints for one token. *)
Definition token_row (t : Token) : list ascii :=
  ljust 20 (str (TokenType_value (type t))) ++ str " "
    ++ ljust 20 (value t) ++ str " "
    ++ ljust 8 (str_of_nat (line t)) ++ str " "
    ++ ljust 8 (str_of_nat (column t)).

(** The tokens [print_tokens] prints a row for. *)
Definition listed (toks : list Token) : list Token :=
  filter (fun t => negb (is_EOF (type t))) toks.

(** The number printed as the total: [len(self.tokens) - 1]. *)
Definition total_tokens (self : LexicalAnalyzer) : Z :=
  Z.of_nat (length (tokens self)) - 1.

(** [print_tokens]: the arguments of its calls of [print], in order. *)
Definition print_tokens (self : LexicalAnalyzer) : list (list ascii) :=
  [ nl :: repeat "="%char 70;
    str "LEXICAL ANALYSIS RESULTS";
    repeat "="%char 70;
    ljust 20 (str "Token Type") ++ str " " ++ ljust 20 (str "Lexeme")
      ++ str " " ++ ljust 8 (str "Line") ++ str " "
      ++ ljust 8 (str "Column");
    repeat "-"%char 70 ]
  ++ map token_row (listed (tokens self))
  ++ [ repeat "="%char 70;
       str "Total Tokens: " ++ str_of_Z (total_tokens self);
       repeat "="%char 70 ].

(* ================================================================= *)
(** ** More vocabulary *)

(** Every character. *)
Definition all_ascii : list ascii := map ascii_of_nat (seq 0 256).

(** Every character of the class [p] is in the class [q]. *)
Definition class_sub (p q : ascii -> bool) : bool :=
  forallb (fun c => implb (p c) (q c)) all_ascii.

(** Every character a lexeme of the pattern can hold is in the class
    [q]. *)
Fixpoint lex_chars (q : ascii -> bool) (r : regex) : bool :=
  match r with
  | Lit c => q c
  | Class p | Star p | Plus p | LazyStar p => class_sub p q
  | Cat r1 r2 | Or r1 r2 => lex_chars q r1 && lex_chars q r2
  end.

(** The length of the longest prefix of [s] made of characters of the
    class [p]. *)
Fixpoint run (p : ascii -> bool) (s : list ascii) : nat :=
  match s with
  | c :: s' => if p c then S (run p s') else 0
  | [] => 0
  end.

(** The number of newline characters of a text. *)
Definition newlines (s : list ascii) : nat := count_occ ascii_dec s nl.

(** The shape of an identifier: a letter or an underscore, then
    letters, digits and underscores. *)
Definition ident_shape (v : list ascii) : Prop :=
  exists c s,
    v = c :: s /\ is_ident_start c = true /\ forallb is_ident_char s = true.

(** The shape of an integer literal: one digit or more. *)
Definition integer_shape (v : list ascii) : Prop :=
  v <> [] /\ forallb is_digit v = true.

(** The shape of a float literal: digits, a dot, digits. *)
Definition float_shape (v : list ascii) : Prop :=
  exists a b,
    v = a ++ "."%char :: b /\ integer_shape a /\ integer_shape b.

(** The one lexeme of a token type whose row is a literal text. *)
Definition operator_lexeme (ty : TokenType) : option (list ascii) :=
  match ty with
  | GREATER_EQUAL => Some (str ">=") | LESS_EQUAL => Some (str "<=")
  | EQUAL => Some (str "==") | NOT_EQUAL => Some (str "!=")
  | ASSIGN => Some (str "=") | PLUS => Some (str "+")
  | MINUS => Some (str "-") | MULTIPLY => Some (str "*")
  | DIVIDE => Some (str "/") | LESS_THAN => Some (str "<")
  | GREATER_THAN => Some (str ">") | LPAREN => Some (str "(")
  | RPAREN => Some (str ")") | LBRACE => Some (str "{")
  | RBRACE => Some (str "}") | SEMICOLON => Some (str ";")
  | COMMA => Some (str ",")
  | _ => None
  end.

(** What the character after a match of the group [name] cannot be: an
    identifier character after an identifier, a digit after a number. *)
Definition munch_ok (name : string) (c : ascii) : Prop :=
  (name = "IDENTIFIER"%string -> is_ident_char c = false)
  /\ (name = "INTEGER"%string \/ name = "FLOAT"%string ->
      is_digit c = false).

(** Characters at which some row always matches: letters, digits, the
    underscore, the space, the tab, the newline and the one-character
    operators and delimiters. *)
Definition covered_char (c : ascii) : bool :=
  is_ident_char c || is_blank c || Ascii.eqb c nl
  || existsb (Ascii.eqb c) (str "=+-*/<>(){};,").

(** The line and column at which the text that follows [text] begins,
    when [text] begins at line and column [lc]: a newline moves to the
    next line, column 1; any other character moves one column on. *)
Definition true_pos (lc : nat * nat) (text : list ascii) : nat * nat :=
  fold_left
    (fun lc ch =>
       if Ascii.eqb ch nl then (fst lc + 1, 1) else (fst lc, snd lc + 1))
    text lc.

(** The line and column recorded in a token. *)
Definition token_pos (t : Token) : nat * nat := (line t, column t).

(** Spaces, tabs and newlines. *)
Definition is_layout (c : ascii) : bool := is_blank c || Ascii.eqb c nl.

(** The text [rest] ends the line: it is empty or begins with a
    newline. *)
Definition line_end (rest : list ascii) : bool :=
  match rest with
  | [] => true
  | c :: _ => Ascii.eqb c nl
  end.

(** From whatever state the scanner is in, at the text [lex ++ rest] it
    creates one token of type [ty] and lexeme [lex] and goes on with
    [rest]. *)
Definition lexes_at (lex : list ascii) (ty : TokenType)
    (rest : list ascii) : Prop :=
  forall pos self,
    fold_left loop_body (scan pos (lex ++ rest)) self
    = fold_left loop_body (scan (pos + length lex) rest)
        (after_token self
           (mkToken ty lex (cur_line self) (cur_column self)) (length lex)).

(** The kind and the lexeme of the token the loop creates for a
    match. *)
Definition match_kind_value (m : Match) : TokenType * list ascii :=
  kind_value (make_token (lastgroup m) (group m) 1 1).

(* ================================================================= *)
(** ** What the matcher finds is in the language of the pattern *)

Section Matcher.

Variable p : ascii -> bool.

Lemma greedy_star_sound : forall s k n e,
  greedy_star p k n s = Some e -> found (Star p) k n s e.
Proof.
  induction s as [|c s IH]; intros k n e H; simpl in H.
  - exists [], []. simpl. rewrite Nat.add_0_r. repeat split; auto.
    now constructor.
  - assert (Hhere : k n (c :: s) = Some e -> found (Star p) k n (c :: s) e).
    { intros Hk. exists [], (c :: s). simpl. rewrite Nat.add_0_r.
      repeat split; auto. now constructor. }
    destruct (p c) eqn:Hp; [|auto].
    destruct (greedy_star p k (S n) s) as [e'|] eqn:Hg; [|auto].
    injection H as ->.
    destruct (IH _ _ _ Hg) as (lex & rest & -> & Hm & Hk).
    exists (c :: lex), rest. repeat split.
    + inversion Hm; subst. constructor. simpl. now rewrite Hp.
    + simpl. now rewrite Nat.add_succ_r.
Qed.

Lemma lazy_star_sound : forall s k n e,
  lazy_star p k n s = Some e -> found (LazyStar p) k n s e.
Proof.
  induction s as [|c s IH]; intros k n e H; simpl in H.
  - destruct (k n []) eqn:Hk; [|discriminate]. injection H as ->.
    exists [], []. simpl. rewrite Nat.add_0_r. repeat split; auto.
    now constructor.
  - destruct (k n (c :: s)) eqn:Hk.
    + injection H as ->. exists [], (c :: s). simpl. rewrite Nat.add_0_r.
      repeat split; auto. now constructor.
    + destruct (p c) eqn:Hp; [|discriminate].
      destruct (IH _ _ _ H) as (lex & rest & -> & Hm & Hk').
      exists (c :: lex), rest. repeat split.
      * inversion Hm; subst. constructor. simpl. now rewrite Hp.
      * simpl. now rewrite Nat.add_succ_r.
Qed.

End Matcher.

Lemma exec_sound : forall r k n s e,
  exec r k n s = Some e -> found r k n s e.
Proof.
  induction r as [c|p|r1 IH1 r2 IH2|r1 IH1 r2 IH2|p|p|p];
    intros k n s e H; simpl in H.
  - destruct s as [|x s]; [discriminate|].
    destruct (Ascii.eqb x c) eqn:E; [|discriminate].
    apply Ascii.eqb_eq in E; subst x.
    exists [c], s. simpl. rewrite Nat.add_1_r. repeat split; auto.
    constructor.
  - destruct s as [|x s]; [discriminate|].
    destruct (p x) eqn:E; [|discriminate].
    exists [x], s. simpl. rewrite Nat.add_1_r. repeat split; auto.
    now constructor.
  - destruct (IH1 _ _ _ _ H) as (a & rest & -> & Ha & Hk).
    destruct (IH2 _ _ _ _ Hk) as (b & rest' & -> & Hb & Hk').
    exists (a ++ b), rest'. repeat split.
    + now rewrite app_assoc.
    + now constructor.
    + now rewrite length_app, Nat.add_assoc.
  - destruct (exec r1 k n s) as [e'|] eqn:E1.
    + injection H as ->.
      destruct (IH1 _ _ _ _ E1) as (a & rest & -> & Ha & Hk).
      exists a, rest. repeat split; auto. now apply M_OrL.
    + destruct (IH2 _ _ _ _ H) as (a & rest & -> & Ha & Hk).
      exists a, rest. repeat split; auto. now apply M_OrR.
  - now apply greedy_star_sound.
  - destruct s as [|x s]; [discriminate|].
    destruct (p x) eqn:E; [|discriminate].
    destruct (greedy_star_sound _ _ _ _ _ H) as (a & rest & -> & Ha & Hk).
    exists (x :: a), rest. repeat split.
    + inversion Ha; subst. now constructor.
    + simpl. now rewrite Nat.add_succ_r.
  - now apply lazy_star_sound.
Qed.

Lemma matches_nonempty : forall r lex,
  matches r lex -> nullable r = false -> lex <> [].
Proof.
  induction 1; simpl; intros Hn; try discriminate.
  - apply andb_false_iff in Hn. destruct Hn as [Hn|Hn].
    + specialize (IHmatches1 Hn). destruct a; [congruence|discriminate].
    + specialize (IHmatches2 Hn). destruct b; [congruence|].
      destruct a; discriminate.
  - apply orb_false_iff in Hn. tauto.
  - apply orb_false_iff in Hn. tauto.
Qed.

(** No row of the table matches the empty string. *)
Lemma token_specs_not_nullable :
  Forall (fun row => nullable (snd row) = false) token_specs.
Proof. repeat constructor. Qed.

Lemma first_match_sound : forall specs s name n,
  first_match specs s = Some (name, n) ->
  exists r lex rest,
    In (name, r) specs /\ s = lex ++ rest /\ n = length lex /\ matches r lex.
Proof.
  induction specs as [|[nm r] specs IH]; intros s name n H; simpl in H.
  - discriminate.
  - destruct (exec r accept 0 s) as [e|] eqn:E.
    + injection H as -> ->.
      destruct (exec_sound _ _ _ _ _ E) as (lex & rest & -> & Hm & Hk).
      unfold accept in Hk. injection Hk as <-.
      exists r, lex, rest. simpl. auto.
    + destruct (IH _ _ _ H) as (r' & lex & rest & Hin & -> & -> & Hm).
      exists r', lex, rest. simpl. auto.
Qed.

Lemma match_at_sound : forall s name n,
  match_at s = Some (name, n) ->
  exists lex rest,
    s = lex ++ rest /\ n = length lex /\ match_of name lex.
Proof.
  intros s name n H.
  destruct (first_match_sound _ _ _ _ H) as (r & lex & rest & Hin & -> & -> & Hm).
  exists lex, rest. repeat split; auto.
  exists r. repeat split; auto.
  apply (matches_nonempty _ _ Hm).
  pose proof token_specs_not_nullable as Hall.
  rewrite Forall_forall in Hall. apply (Hall _ Hin).
Qed.

Lemma match_at_length : forall s name n,
  match_at s = Some (name, n) -> 1 <= n <= length s.
Proof.
  intros s name n H.
  destruct (match_at_sound _ _ _ H) as (lex & rest & -> & -> & (r & _ & _ & Hne)).
  rewrite length_app. destruct lex; [congruence|]. simpl. lia.
Qed.

(* ================================================================= *)
(** ** [finditer]: enough fuel, and its equations *)

Lemma finditer_from_fuel : forall fuel1 fuel2 pos s,
  length s < fuel1 -> length s < fuel2 ->
  finditer_from fuel1 pos s = finditer_from fuel2 pos s.
Proof.
  induction fuel1 as [|fuel1 IH]; intros fuel2 pos s H1 H2; [lia|].
  destruct fuel2 as [|fuel2]; [lia|]. simpl.
  destruct (match_at s) as [[name n]|] eqn:E.
  - f_equal. pose proof (match_at_length _ _ _ E) as Hn.
    apply IH; rewrite length_skipn; lia.
  - destruct s as [|c s]; [reflexivity|]. simpl in *. apply IH; lia.
Qed.

Lemma finditer_scan : forall source, finditer source = scan 0 source.
Proof. reflexivity. Qed.

Lemma scan_nil : forall pos, scan pos [] = [].
Proof. reflexivity. Qed.

Lemma scan_skip : forall pos c s,
  match_at (c :: s) = None -> scan pos (c :: s) = scan (S pos) s.
Proof.
  intros pos c s E. unfold scan at 1.
  cbn [finditer_from]. rewrite E. apply finditer_from_fuel; simpl; lia.
Qed.

Lemma scan_match : forall pos lex rest name,
  match_at (lex ++ rest) = Some (name, length lex) ->
  scan pos (lex ++ rest)
  = mkMatch name pos lex :: scan (pos + length lex) rest.
Proof.
  intros pos lex rest name E. unfold scan at 1.
  cbn [finditer_from]. rewrite E.
  rewrite firstn_app, Nat.sub_diag, firstn_all, firstn_O, app_nil_r.
  rewrite skipn_app, Nat.sub_diag, skipn_all, skipn_O. simpl.
  f_equal. pose proof (match_at_length _ _ _ E) as Hn.
  apply finditer_from_fuel; rewrite ?length_app; lia.
Qed.

(** Induction along the scan. *)
Lemma scan_ind : forall P : nat -> list ascii -> list Match -> Prop,
  (forall pos, P pos [] []) ->
  (forall pos c s,
      match_at (c :: s) = None ->
      P (S pos) s (scan (S pos) s) ->
      P pos (c :: s) (scan (S pos) s)) ->
  (forall pos lex rest name,
      match_at (lex ++ rest) = Some (name, length lex) ->
      match_of name lex ->
      P (pos + length lex) rest (scan (pos + length lex) rest) ->
      P pos (lex ++ rest)
        (mkMatch name pos lex :: scan (pos + length lex) rest)) ->
  forall pos s, P pos s (scan pos s).
Proof.
  intros P Hnil Hskip Hmatch pos s.
  remember (length s) as len eqn:Hlen.
  revert pos s Hlen.
  induction len as [len IH] using lt_wf_ind; intros pos s Hlen.
  destruct (match_at s) as [[name n]|] eqn:E.
  - destruct (match_at_sound _ _ _ E) as (lex & rest & -> & -> & Hof).
    rewrite (scan_match pos _ _ _ E). apply Hmatch; auto.
    pose proof (match_at_length _ _ _ E) as Hn.
    apply (IH (length rest)); auto. rewrite length_app in *. lia.
  - destruct s as [|c s]; [apply Hnil|].
    rewrite (scan_skip pos _ _ E). apply Hskip; auto.
    apply (IH (length s)); auto. simpl in Hlen. lia.
Qed.

(** Every match that [finditer] yields comes from a row of the table. *)
Lemma scan_match_of : forall pos s,
  Forall (fun m => match_of (lastgroup m) (group m)) (scan pos s).
Proof.
  intros pos s. apply scan_ind with (P := fun _ _ ms =>
    Forall (fun m => match_of (lastgroup m) (group m)) ms); auto.
Qed.

(* ================================================================= *)
(** ** The loop of [analyze] in closed form *)

Lemma loop_spec : forall ms self,
  fold_left loop_body ms self
  = mkLexer (source self) (position self)
      (fst (final_pos (counters self) ms))
      (snd (final_pos (counters self) ms))
      (tokens self ++ emitted (counters self) ms).
Proof.
  induction ms as [|m ms IH]; intros self.
  - destruct self; simpl. now rewrite app_nil_r.
  - cbn [fold_left]. rewrite IH. unfold final_pos. cbn [fold_left emitted].
    unfold loop_body, skipped, advance, counters.
    destruct (String.eqb (lastgroup m) "WHITESPACE");
      [|destruct (String.eqb (lastgroup m) "NEWLINE")];
      destruct self; simpl; try reflexivity.
    now rewrite <- app_assoc.
Qed.

Lemma analyze_spec : forall self,
  analyze self
  = let lc := final_pos (counters self) (finditer (source self)) in
    mkLexer (source self) (position self) (fst lc) (snd lc)
      (tokens self ++ emitted (counters self) (finditer (source self))
         ++ [mkToken EOF [] (fst lc) (snd lc)]).
Proof.
  intros self. unfold analyze. rewrite loop_spec. unfold append_token.
  simpl. now rewrite <- app_assoc.
Qed.

Lemma tokenize_spec : forall src,
  tokenize src
  = emitted (1, 1) (finditer src)
      ++ [mkToken EOF [] (fst (final_pos (1, 1) (finditer src)))
                         (snd (final_pos (1, 1) (finditer src)))].
Proof. intros src. unfold tokenize. now rewrite analyze_spec. Qed.

(** The loop reads the group name and the text of a match, not its
    offset. *)
Lemma advance_name_text : forall lc m m',
  name_text m = name_text m' -> advance lc m = advance lc m'.
Proof.
  intros lc m m' H. unfold name_text in H. injection H as Hn Hg.
  unfold advance. now rewrite Hn, Hg.
Qed.

Lemma final_pos_name_text : forall ms ms' lc,
  map name_text ms = map name_text ms' -> final_pos lc ms = final_pos lc ms'.
Proof.
  induction ms as [|m ms IH]; intros [|m' ms'] lc H; try discriminate H.
  - reflexivity.
  - cbn [map] in H. injection H as Hn Hg Hms.
    assert (Hm : name_text m = name_text m')
      by (unfold name_text; congruence).
    unfold final_pos. cbn [fold_left].
    rewrite (advance_name_text lc m m' Hm). apply (IH _ _ Hms).
Qed.

Lemma emitted_name_text : forall ms ms' lc,
  map name_text ms = map name_text ms' -> emitted lc ms = emitted lc ms'.
Proof.
  induction ms as [|m ms IH]; intros [|m' ms'] lc H; try discriminate H.
  - reflexivity.
  - cbn [map] in H. injection H as Hn Hg Hms.
    assert (Hm : name_text m = name_text m')
      by (unfold name_text; congruence).
    cbn [emitted].
    rewrite (advance_name_text lc m m' Hm), (IH _ _ Hms).
    unfold skipped. now rewrite Hn, Hg.
Qed.

(** The matches of a scan do not depend on the offset it begins at,
    their offsets apart. *)
Lemma scan_name_text : forall pos s q,
  map name_text (scan pos s) = map name_text (scan q s).
Proof.
  intros pos s.
  apply scan_ind with (P := fun _ s ms =>
    forall q, map name_text ms = map name_text (scan q s)); clear pos s.
  - reflexivity.
  - intros pos c s E IH q. rewrite (scan_skip q c s E). apply IH.
  - intros pos lex rest name E _ IH q.
    rewrite (scan_match q lex rest name E). cbn [map]. f_equal. apply IH.
Qed.

Lemma reconstruct_length : forall pos s,
  length (concat (map group (scan pos s))) <= length s.
Proof.
  intros pos s.
  apply scan_ind with (P := fun _ s ms =>
    length (concat (map group ms)) <= length s); clear pos s.
  - reflexivity.
  - intros pos c s _ IH. simpl. lia.
  - intros pos lex rest name _ _ IH. cbn [map concat group].
    rewrite !length_app. lia.
Qed.

Lemma map_group_name_text : forall ms ms',
  map name_text ms = map name_text ms' -> map group ms = map group ms'.
Proof.
  intros ms ms' H.
  change (map group ms) with (map (fun m => snd (name_text m)) ms).
  change (map group ms') with (map (fun m => snd (name_text m)) ms').
  rewrite <- (map_map name_text snd ms), <- (map_map name_text snd ms').
  now rewrite H.
Qed.

(** A character at which nothing matches leaves no trace. *)
Lemma tokenize_unmatched : forall c s,
  match_at (c :: s) = None -> tokenize (c :: s) = tokenize s.
Proof.
  intros c s E. rewrite !tokenize_spec, !finditer_scan.
  rewrite (scan_skip 0 c s E).
  pose proof (scan_name_text 1 s 0) as H.
  now rewrite (emitted_name_text _ _ _ H), (final_pos_name_text _ _ _ H).
Qed.

Lemma reconstruct_unmatched : forall c s,
  match_at (c :: s) = None -> reconstruct (c :: s) = reconstruct s.
Proof.
  intros c s E. unfold reconstruct. rewrite !finditer_scan.
  rewrite (scan_skip 0 c s E).
  now rewrite (map_group_name_text _ _ (scan_name_text 1 s 0)).
Qed.

(* ================================================================= *)
(** ** Which token types the loop can create *)

Lemma lookup_In : forall (A : Type) name (tbl : list (string * A)) v,
  lookup name tbl = Some v -> In (name, v) tbl.
Proof.
  induction tbl as [|[n w] tbl IH]; intros v H; simpl in H.
  - discriminate.
  - destruct (String.eqb name n) eqn:E.
    + apply String.eqb_eq in E. injection H as ->. subst. now left.
    + right. auto.
Qed.

Lemma make_token_whitespace : forall name v l c,
  type (make_token name v l c) = WHITESPACE -> name = "WHITESPACE"%string.
Proof.
  intros name v l c. unfold make_token.
  destruct (String.eqb name "IDENTIFIER").
  - destruct (in_keywords v); discriminate.
  - destruct (TokenType_getitem name) as [ty|] eqn:E; simpl;
      [|discriminate].
    intros ->. apply lookup_In in E. simpl in E.
    repeat (destruct E as [E|E]; [congruence|]). contradiction.
Qed.

Lemma make_token_known : forall name r v l c,
  In (name, r) token_specs -> name <> "NEWLINE"%string ->
  type (make_token name v l c) <> UNKNOWN.
Proof.
  intros name r v l c Hin Hnl. simpl in Hin.
  repeat (destruct Hin as [Hin|Hin];
          [injection Hin as <- _; unfold make_token; simpl;
           try destruct (in_keywords v); simpl; congruence|]).
  contradiction.
Qed.

Lemma skipped_false : forall m,
  skipped m = false ->
  lastgroup m <> "WHITESPACE"%string /\ lastgroup m <> "NEWLINE"%string.
Proof.
  intros m H. unfold skipped in H. apply orb_false_iff in H.
  destruct H as [H1 H2]. apply String.eqb_neq in H1, H2. auto.
Qed.

Lemma emitted_no_whitespace : forall ms lc,
  Forall (fun t => type t <> WHITESPACE) (emitted lc ms).
Proof.
  induction ms as [|m ms IH]; intros lc; simpl; [constructor|].
  destruct (skipped m) eqn:E; [apply IH|].
  constructor; [|apply IH].
  intros H. apply make_token_whitespace in H.
  apply skipped_false in E. tauto.
Qed.

Lemma emitted_no_unknown : forall ms lc,
  Forall (fun m => match_of (lastgroup m) (group m)) ms ->
  Forall (fun t => type t <> UNKNOWN) (emitted lc ms).
Proof.
  induction ms as [|m ms IH]; intros lc Hall; simpl; [constructor|].
  inversion Hall as [|? ? (r & Hin & _) Hall']; subst.
  destruct (skipped m) eqn:E; [now apply IH|].
  constructor; [|now apply IH].
  apply skipped_false in E. now apply make_token_known with (r := r).
Qed.

(* ================================================================= *)
(** ** Comments and whitespace (C1) *)

(** C1, counterexample: the specification says that tokenizing
    ["int x ; // trailing\n"] yields exactly the tokens for [int], [x],
    [;] and the end marker, and that no token of a comment kind reaches
    the output.  The code returns a different list, and it holds a
    [COMMENT] token. *)
Lemma C1_comment_token_emitted :
  tokenize C1_input
    <> [ mkToken KEYWORD (str "int") 1 1; mkToken IDENTIFIER (str "x") 1 5;
         mkToken SEMICOLON (str ";") 1 7; mkToken EOF [] 2 1 ]
  /\ ~ Forall (fun t => type t <> COMMENT /\ type t <> WHITESPACE)
         (tokenize C1_input).
Proof.
  split.
  - vm_compute. discriminate.
  - intros H. rewrite Forall_forall in H.
    destruct (H (mkToken COMMENT (str "// trailing") 1 9)) as [Hc _].
    + vm_compute. tauto.
    + now apply Hc.
Qed.

(* ================================================================= *)
(** ** Characters that no rule matches (C2, C3, C7) *)

(** C2, the code at the failing input ["@"]: no rule matches the
    character, [finditer] passes over it, and the loop never sees it:
    the output is the [EOF] token alone, at column 1.  In
    ["a @ b"] the token for [b] is created at column 4.  In general a
    character at which nothing matches changes nothing in the output:
    the text with it at the front is tokenized as the text without it.
    For every input, no token of kind [UNKNOWN] is ever created: the
    only branch that builds one is the [KeyError] handler, which no
    group name of the table reaches. *)
Theorem C2_unmatched_character_dropped : forall src c s,
  match_at (c :: s) = None ->
  Forall (fun t => type t <> UNKNOWN) (tokenize src)
  /\ tokenize (c :: s) = tokenize s
  /\ tokenize (str "@") = [ mkToken EOF [] 1 1 ]
  /\ tokenize (str "a @ b")
     = [ mkToken IDENTIFIER (str "a") 1 1; mkToken IDENTIFIER (str "b") 1 4;
         mkToken EOF [] 1 5 ].
Proof.
  intros src c s E. split; [|split; [|split; reflexivity]].
  - rewrite tokenize_spec. apply Forall_app. split.
    + apply emitted_no_unknown. rewrite finditer_scan. apply scan_match_of.
    + repeat constructor. discriminate.
  - now apply tokenize_unmatched.
Qed.

(** C2 at the text ["@b"]. *)
Lemma C2_witness :
  match_at (str "@b") = None
  /\ Forall (fun t => type t <> UNKNOWN) (tokenize (str "a @ b"))
  /\ tokenize (str "@b") = tokenize (str "b")
  /\ tokenize (str "@") = [ mkToken EOF [] 1 1 ]
  /\ tokenize (str "a @ b")
     = [ mkToken IDENTIFIER (str "a") 1 1; mkToken IDENTIFIER (str "b") 1 4;
         mkToken EOF [] 1 5 ].
Proof.
  split; [reflexivity|].
  exact (C2_unmatched_character_dropped
           (str "a @ b") "@" (str "b") eq_refl).
Defined.

(** C3, the code at the failing input ["a@b"]: the lexemes and the
    skipped text together give ["ab"]; the character [@] is lost.  In
    general a text that begins with a character at which nothing
    matches is not reconstructed: what is accounted for is what is
    accounted for in the text without that character. *)
Theorem C3_reconstruction_loses_unmatched : forall c s,
  match_at (c :: s) = None ->
  reconstruct (c :: s) = reconstruct s
  /\ reconstruct (c :: s) <> c :: s
  /\ reconstruct (str "a@b") = str "ab"
  /\ tokenize (str "a@b")
     = [ mkToken IDENTIFIER (str "a") 1 1; mkToken IDENTIFIER (str "b") 1 2;
         mkToken EOF [] 1 3 ].
Proof.
  intros c s E. split; [|split; [|split; reflexivity]].
  - now apply reconstruct_unmatched.
  - rewrite (reconstruct_unmatched c s E). intros H.
    pose proof (reconstruct_length 0 s) as Hlen.
    unfold reconstruct in H. rewrite finditer_scan in H.
    rewrite H in Hlen. simpl in Hlen. lia.
Qed.

(** C3 at the text ["@b"]. *)
Lemma C3_witness :
  match_at (str "@b") = None
  /\ reconstruct (str "@b") = reconstruct (str "b")
  /\ reconstruct (str "@b") <> str "@b"
  /\ reconstruct (str "a@b") = str "ab"
  /\ tokenize (str "a@b")
     = [ mkToken IDENTIFIER (str "a") 1 1; mkToken IDENTIFIER (str "b") 1 2;
         mkToken EOF [] 1 3 ].
Proof.
  split; [reflexivity|].
  exact (C3_reconstruction_loses_unmatched "@" (str "b") eq_refl).
Defined.

(** C7, the code at ["10.5"] and at the failing input ["10."]: the first
    is one [FLOAT] token; the second is the [INTEGER] token ["10"]
    followed by the [EOF] token at column 3, with no token for the
    dot. *)
Theorem C7_float_and_trailing_dot :
  tokenize (str "10.5") = [ mkToken FLOAT (str "10.5") 1 1; mkToken EOF [] 1 5 ]
  /\ tokenize (str "10.")
     = [ mkToken INTEGER (str "10") 1 1; mkToken EOF [] 1 3 ].
Proof. split; reflexivity. Qed.

(* ================================================================= *)
(** ** Lines and columns (C5) *)

(** C5, the code at ["x\n=1;"] and at the failing input ["/*\n*/x"]: a
    bare newline moves to the next line, column 1; a newline inside a
    block comment does not: the comment is one [COMMENT] token, the line
    stays 1 and the column advances by the length of the lexeme, so [x]
    is placed at line 1, column 6.  In general, whatever the text [v] of
    a [COMMENT] or [STRING] match holds, the iteration leaves the line
    as it is and adds the length of [v] to the column. *)
Theorem C5_newline_inside_comment_not_counted : forall self pos v,
  tokenize (str "x" ++ nl :: str "=1;")
  = [ mkToken IDENTIFIER (str "x") 1 1; mkToken ASSIGN (str "=") 2 1;
      mkToken INTEGER (str "1") 2 2; mkToken SEMICOLON (str ";") 2 3;
      mkToken EOF [] 2 4 ]
  /\ tokenize (str "/*" ++ nl :: str "*/x")
     = [ mkToken COMMENT (str "/*" ++ nl :: str "*/") 1 1;
         mkToken IDENTIFIER (str "x") 1 6; mkToken EOF [] 1 7 ]
  /\ counters (loop_body self (mkMatch "COMMENT" pos v))
     = (cur_line self, cur_column self + length v)
  /\ counters (loop_body self (mkMatch "STRING" pos v))
     = (cur_line self, cur_column self + length v)
  /\ counters (loop_body self (mkMatch "NEWLINE" pos v))
     = (cur_line self + 1, 1).
Proof. intros self pos v. repeat split; reflexivity. Qed.

(* ================================================================= *)
(** ** One step of the scanner on a known match *)

Lemma lexes_first_intro : forall lex ty name,
  (forall rest, match_at (lex ++ rest) = Some (name, length lex)) ->
  skipped (mkMatch name 0 lex) = false ->
  (forall l c, make_token name lex l c = mkToken ty lex l c) ->
  lexes_first lex ty.
Proof.
  intros lex ty name Hm Hs Ht rest pos self.
  rewrite (scan_match pos _ _ _ (Hm rest)). cbn [fold_left]. f_equal.
  unfold loop_body, skipped in *. cbn [lastgroup group] in *.
  apply orb_false_iff in Hs. destruct Hs as [-> ->]. now rewrite Ht.
Qed.

(* ================================================================= *)
(** ** Operators (C8) *)

(** C8: tokenizing [">="] yields exactly one [GREATER_EQUAL] token;
    tokenizing ["> ="] yields a [GREATER_THAN] token followed by an
    [ASSIGN] token; and wherever the scanner stands, at text that begins
    with a two-character operator ([>=], [<=], [==], [!=]) it creates
    the token of the two-character operator, never that of its
    one-character prefix. *)
Theorem C8_operator_maximal_munch :
  tokenize (str ">=")
  = [ mkToken GREATER_EQUAL (str ">=") 1 1; mkToken EOF [] 1 3 ]
  /\ tokenize (str "> =")
     = [ mkToken GREATER_THAN (str ">") 1 1; mkToken ASSIGN (str "=") 1 3;
         mkToken EOF [] 1 4 ]
  /\ lexes_first (str ">=") GREATER_EQUAL
  /\ lexes_first (str "<=") LESS_EQUAL
  /\ lexes_first (str "==") EQUAL
  /\ lexes_first (str "!=") NOT_EQUAL.
Proof.
  repeat split; try reflexivity.
  - now apply lexes_first_intro with (name := "GREATER_EQUAL"%string).
  - now apply lexes_first_intro with (name := "LESS_EQUAL"%string).
  - now apply lexes_first_intro with (name := "EQUAL"%string).
  - now apply lexes_first_intro with (name := "NOT_EQUAL"%string).
Qed.

(* ================================================================= *)
(** ** Identifiers and keywords (C6) *)

(** A greedy run whose continuation accepts takes every character of
    the class that is there. *)
Lemma greedy_star_all : forall p s n,
  forallb p s = true -> greedy_star p accept n s = Some (n + length s).
Proof.
  induction s as [|c s IH]; intros n H; simpl in *.
  - unfold accept. now rewrite Nat.add_0_r.
  - apply andb_true_iff in H. destruct H as [-> H].
    rewrite (IH _ H). f_equal. lia.
Qed.

Lemma ident_start_facts : forall c,
  is_ident_start c = true ->
  Ascii.eqb c "/" = false /\ is_digit c = false /\ Ascii.eqb c dquote = false.
Proof.
  intros c.
  destruct c as [[] [] [] [] [] [] [] []]; vm_compute; intros H;
    try discriminate H; auto.
Qed.

Lemma match_at_identifier : forall c s,
  is_ident_start c = true -> forallb is_ident_char s = true ->
  match_at (c :: s) = Some ("IDENTIFIER"%string, S (length s)).
Proof.
  intros c s Hc Hs.
  destruct (ident_start_facts c Hc) as (H1 & H2 & H3).
  unfold match_at, token_specs. cbn [first_match exec].
  rewrite H1, H2, H3, Hc. now rewrite greedy_star_all.
Qed.

(** A text that is one identifier lexes as one token. *)
Lemma tokenize_identifier : forall c s,
  is_ident_start c = true -> forallb is_ident_char s = true ->
  tokenize (c :: s)
  = [ make_token "IDENTIFIER" (c :: s) 1 1;
      mkToken EOF [] 1 (2 + length s) ].
Proof.
  intros c s Hc Hs. rewrite tokenize_spec, finditer_scan.
  pose proof (match_at_identifier c s Hc Hs) as Hm.
  rewrite <- (app_nil_r (c :: s)) in Hm.
  pose proof (scan_match 0 (c :: s) [] _ Hm) as Hscan.
  rewrite app_nil_r, scan_nil in Hscan. rewrite Hscan.
  reflexivity.
Qed.

(** C6: for every string of the keyword set, tokenizing it alone yields
    one [KEYWORD] token; and for a keyword followed by one more
    identifier character, tokenizing yields one [IDENTIFIER] token whose
    lexeme is the whole extended string. *)
Theorem C6_keyword_after_greedy_identifier : forall kw c,
  In kw keywords -> is_ident_char c = true ->
  tokenize kw = [ mkToken KEYWORD kw 1 1; mkToken EOF [] 1 (1 + length kw) ]
  /\ tokenize (kw ++ [c])
     = [ mkToken IDENTIFIER (kw ++ [c]) 1 1;
         mkToken EOF [] 1 (2 + length kw) ].
Proof.
  intros kw c Hin Hc. simpl in Hin.
  repeat (destruct Hin as [Hin|Hin];
          [subst kw; split; [reflexivity|];
           cbn [str list_ascii_of_string app];
           rewrite tokenize_identifier;
           [unfold make_token; cbn; rewrite ?length_app; reflexivity
           |reflexivity
           |cbn; rewrite Hc; reflexivity]|]).
  contradiction.
Qed.

(** C6 at the keyword [if] and the character [x]. *)
Lemma C6_witness :
  tokenize (str "if")
  = [ mkToken KEYWORD (str "if") 1 1; mkToken EOF [] 1 3 ]
  /\ tokenize (str "ifx")
     = [ mkToken IDENTIFIER (str "ifx") 1 1; mkToken EOF [] 1 4 ].
Proof.
  apply (C6_keyword_after_greedy_identifier (str "if") "x").
  - simpl. auto.
  - reflexivity.
Defined.

(* ================================================================= *)
(** ** Strings and block comments without their closing delimiter (C4) *)

Lemma is_any_true : forall c, is_any c = true.
Proof. intros c. unfold is_any, is_nonspace. apply orb_negb_r. Qed.

Lemma lazy_star_unclosed : forall t n,
  closes t = false ->
  lazy_star is_any (exec (Cat (Lit "*") (Lit "/")) accept) n t = None.
Proof.
  induction t as [|c t IH]; intros n H.
  - reflexivity.
  - cbn [closes] in H. apply orb_false_iff in H. destruct H as [H1 H2].
    cbn [lazy_star exec]. rewrite is_any_true, (IH _ H2).
    destruct (Ascii.eqb c "*"); [|reflexivity].
    destruct t as [|x t]; [reflexivity|].
    simpl in H1. now rewrite H1.
Qed.

Lemma match_at_unclosed_comment : forall t,
  closes t = false ->
  match_at (str "/*" ++ t) = Some ("DIVIDE"%string, 1).
Proof.
  intros t H. unfold match_at, token_specs.
  cbn [first_match str list_ascii_of_string app].
  cbn [exec].
  change (lazy_star is_any _ 2 t)
    with (lazy_star is_any (exec (Cat (Lit "*") (Lit "/")) accept) 2 t).
  rewrite (lazy_star_unclosed t 2 H). reflexivity.
Qed.

Lemma unclosed_comment_step : forall t pos self,
  closes t = false ->
  fold_left loop_body (scan pos (str "/*" ++ t)) self
  = fold_left loop_body (scan (pos + 2) t)
      (after_token
         (after_token self
            (mkToken DIVIDE (str "/") (cur_line self) (cur_column self)) 1)
         (mkToken MULTIPLY (str "*") (cur_line self) (cur_column self + 1))
         1).
Proof.
  intros t pos self H.
  pose proof (match_at_unclosed_comment t H) as Hm.
  change (str "/*" ++ t) with (str "/" ++ (str "*" ++ t)) in *.
  rewrite (scan_match pos (str "/") _ _ Hm). cbn [fold_left].
  assert (Hm2 : match_at (str "*" ++ t) = Some ("MULTIPLY"%string, 1))
    by reflexivity.
  rewrite (scan_match _ (str "*") _ _ Hm2). cbn [fold_left].
  replace (pos + length (str "/") + length (str "*")) with (pos + 2)
    by (simpl; lia).
  reflexivity.
Qed.

Lemma greedy_star_unquoted : forall u n,
  forallb is_not_quote u = true ->
  greedy_star is_not_quote (exec (Lit dquote) accept) n u = None.
Proof.
  induction u as [|c u IH]; intros n H.
  - reflexivity.
  - cbn [forallb] in H. apply andb_true_iff in H. destruct H as [Hc Hu].
    cbn [greedy_star exec]. rewrite Hc, (IH _ Hu).
    unfold is_not_quote in Hc. apply negb_true_iff in Hc. now rewrite Hc.
Qed.

Lemma match_at_unclosed_string : forall u,
  forallb is_not_quote u = true -> match_at (dquote :: u) = None.
Proof.
  intros u H. unfold match_at, token_specs.
  cbn [first_match]. cbn [exec].
  change (greedy_star is_not_quote _ 1 u)
    with (greedy_star is_not_quote (exec (Lit dquote) accept) 1 u).
  rewrite (greedy_star_unquoted u 1 H). reflexivity.
Qed.

Lemma string_row : forall r,
  In ("STRING"%string, r) token_specs ->
  r = Cat (Lit dquote) (Cat (Star is_not_quote) (Lit dquote)).
Proof.
  intros r H. simpl in H.
  repeat (destruct H as [H|H]; [congruence|]). contradiction.
Qed.

Lemma comment_row : forall r,
  In ("COMMENT"%string, r) token_specs ->
  r = Or (Cat (Lit "/") (Cat (Lit "/") (Star is_dot)))
         (Cat (Lit "/") (Cat (Lit "*")
            (Cat (LazyStar is_any) (Cat (Lit "*") (Lit "/"))))).
Proof.
  intros r H. simpl in H.
  repeat (destruct H as [H|H]; [congruence|]). contradiction.
Qed.

(** The group a token of a given type was created for. *)
Lemma make_token_string : forall name r v l c,
  In (name, r) token_specs ->
  type (make_token name v l c) = STRING -> name = "STRING"%string.
Proof.
  intros name r v l c Hin. simpl in Hin.
  repeat (destruct Hin as [Hin|Hin];
          [injection Hin as <- _; unfold make_token; simpl;
           try destruct (in_keywords v); simpl; congruence|]).
  contradiction.
Qed.

Lemma make_token_comment : forall name r v l c,
  In (name, r) token_specs ->
  type (make_token name v l c) = COMMENT -> name = "COMMENT"%string.
Proof.
  intros name r v l c Hin. simpl in Hin.
  repeat (destruct Hin as [Hin|Hin];
          [injection Hin as <- _; unfold make_token; simpl;
           try destruct (in_keywords v); simpl; congruence|]).
  contradiction.
Qed.

Lemma make_token_fields : forall name v l c,
  value (make_token name v l c) = v
  /\ line (make_token name v l c) = l
  /\ column (make_token name v l c) = c.
Proof.
  intros name v l c. unfold make_token.
  destruct (String.eqb name "IDENTIFIER");
    [destruct (in_keywords v)|destruct (TokenType_getitem name)];
    simpl; auto.
Qed.

Lemma string_lexeme : forall lex,
  matches (Cat (Lit dquote) (Cat (Star is_not_quote) (Lit dquote))) lex ->
  complete_string lex.
Proof.
  intros lex H.
  inversion H as [| |? ? a b Ha Hb| | | | |]; subst.
  inversion Ha; subst.
  inversion Hb as [| |? ? a' b' Ha' Hb'| | | | |]; subst.
  inversion Ha'; subst. inversion Hb'; subst.
  exists a'. auto.
Qed.

Lemma comment_lexeme : forall lex,
  matches (Or (Cat (Lit "/") (Cat (Lit "/") (Star is_dot)))
              (Cat (Lit "/") (Cat (Lit "*")
                 (Cat (LazyStar is_any) (Cat (Lit "*") (Lit "/")))))) lex ->
  complete_comment lex.
Proof.
  intros lex H.
  inversion H as [| | |? ? ? H1|? ? ? H1| | |]; subst.
  - left.
    inversion H1 as [| |? ? a b Ha Hb| | | | |]; subst.
    inversion Ha; subst.
    inversion Hb as [| |? ? a' b' Ha' Hb'| | | | |]; subst.
    inversion Ha'; subst. inversion Hb'; subst.
    exists b'. auto.
  - right.
    inversion H1 as [| |? ? a b Ha Hb| | | | |]; subst.
    inversion Ha; subst.
    inversion Hb as [| |? ? a' b' Ha' Hb'| | | | |]; subst.
    inversion Ha'; subst.
    inversion Hb' as [| |? ? a2 b2 Ha2 Hb2| | | | |]; subst.
    inversion Hb2 as [| |? ? a3 b3 Ha3 Hb3| | | | |]; subst.
    inversion Ha3; subst. inversion Hb3; subst.
    exists a2. reflexivity.
Qed.

(** A property of the token of every match holds of every token the
    loop creates. *)
Lemma emitted_Forall : forall (Q : Token -> Prop) ms lc,
  (forall name lex l c,
      match_of name lex -> Q (make_token name lex l c)) ->
  Forall (fun m => match_of (lastgroup m) (group m)) ms ->
  Forall Q (emitted lc ms).
Proof.
  intros Q ms. induction ms as [|m ms IH]; intros lc HQ Hall; simpl;
    [constructor|].
  inversion Hall; subst.
  destruct (skipped m); [now apply IH|].
  constructor; [now apply HQ|now apply IH].
Qed.

Lemma tokenize_Forall : forall (Q : Token -> Prop) src,
  (forall name lex l c,
      match_of name lex -> Q (make_token name lex l c)) ->
  (forall l c, Q (mkToken EOF [] l c)) ->
  Forall Q (tokenize src).
Proof.
  intros Q src HQ Heof. rewrite tokenize_spec. apply Forall_app. split.
  - apply emitted_Forall; auto. rewrite finditer_scan. apply scan_match_of.
  - repeat constructor. apply Heof.
Qed.

(** C4, counterexample: tokenizing a string literal with no closing
    quote yields no [STRING] token, and tokenizing a block comment with
    no closing delimiter yields no [COMMENT] token. *)
Lemma C4_unterminated_not_matched :
  tokenize (dquote :: str "abc")
  = [ mkToken IDENTIFIER (str "abc") 1 1; mkToken EOF [] 1 4 ]
  /\ tokenize (str "/* abc")
     = [ mkToken DIVIDE (str "/") 1 1; mkToken MULTIPLY (str "*") 1 2;
         mkToken IDENTIFIER (str "abc") 1 4; mkToken EOF [] 1 7 ]
  /\ ~ In (mkToken STRING (dquote :: str "abc") 1 1)
         (tokenize (dquote :: str "abc"))
  /\ ~ In (mkToken COMMENT (str "/* abc") 1 1) (tokenize (str "/* abc")).
Proof.
  repeat split; try reflexivity.
  - vm_compute. intros [H|[H|H]]; try discriminate H; contradiction.
  - vm_compute.
    intros [H|[H|[H|[H|H]]]]; try discriminate H; contradiction.
Qed.

(** C4, amended: the string rule and the block comment rule match only
    when the closing delimiter is there.  For every input, the lexeme of
    every [STRING] token is a complete literal, and the lexeme of every
    [COMMENT] token is a line comment or a block comment that ends in
    its closing delimiter.  At a quote that no other quote follows (the
    text [u]) the pattern finds no [STRING] match.  Where the scanner
    stands at the two characters that open a block comment and no
    closing delimiter follows in [t], it creates a [DIVIDE] token and a
    [MULTIPLY] token for them and goes on with [t]. *)
Theorem C4_only_terminated_constructs_match : forall src t u pos self,
  closes t = false ->
  forallb is_not_quote u = true ->
  Forall (fun tok => type tok = STRING -> complete_string (value tok))
         (tokenize src)
  /\ Forall (fun tok => type tok = COMMENT -> complete_comment (value tok))
            (tokenize src)
  /\ (forall n, match_at (dquote :: u) <> Some ("STRING"%string, n))
  /\ fold_left loop_body (scan pos (str "/*" ++ t)) self
     = fold_left loop_body (scan (pos + 2) t)
         (after_token
            (after_token self
               (mkToken DIVIDE (str "/") (cur_line self) (cur_column self))
               1)
            (mkToken MULTIPLY (str "*") (cur_line self) (cur_column self + 1))
            1).
Proof.
  intros src t u pos self H Hu. split; [|split; [|split]].
  - apply tokenize_Forall; [|discriminate].
    intros name lex l c (r & Hin & Hm & _) Hty.
    destruct (make_token_fields name lex l c) as (-> & _).
    apply (make_token_string _ r) in Hty; auto. subst name.
    apply string_row in Hin. subst r. now apply string_lexeme.
  - apply tokenize_Forall; [|discriminate].
    intros name lex l c (r & Hin & Hm & _) Hty.
    destruct (make_token_fields name lex l c) as (-> & _).
    apply (make_token_comment _ r) in Hty; auto. subst name.
    apply comment_row in Hin. subst r. now apply comment_lexeme.
  - intros n. rewrite (match_at_unclosed_string u Hu). discriminate.
  - now apply unclosed_comment_step.
Qed.

(** C4 at a quote followed by [abc] and at a block comment opened
    before [ abc]. *)
Lemma C4_witness :
  closes (str " abc") = false
  /\ forallb is_not_quote (str "abc") = true
  /\ Forall (fun tok => type tok = STRING -> complete_string (value tok))
            (tokenize (dquote :: str "abc"))
  /\ Forall (fun tok => type tok = COMMENT -> complete_comment (value tok))
            (tokenize (dquote :: str "abc"))
  /\ (forall n, match_at (dquote :: str "abc") <> Some ("STRING"%string, n))
  /\ fold_left loop_body (scan 0 (str "/*" ++ str " abc"))
       (init (str "/* abc"))
     = fold_left loop_body (scan 2 (str " abc"))
         (after_token
            (after_token (init (str "/* abc"))
               (mkToken DIVIDE (str "/") 1 1) 1)
            (mkToken MULTIPLY (str "*") 1 2) 1).
Proof.
  split; [reflexivity|]. split; [reflexivity|].
  exact (C4_only_terminated_constructs_match
           (dquote :: str "abc") (str " abc") (str "abc") 0
           (init (str "/* abc")) eq_refl eq_refl).
Defined.

(* ================================================================= *)
(** ** Order of the tokens (C9) *)

Lemma le_pos_refl : forall a, le_pos a a.
Proof. intros a. right. auto. Qed.

Lemma le_pos_trans : forall a b c, le_pos a b -> le_pos b c -> le_pos a c.
Proof. unfold le_pos. intros a b c. lia. Qed.

Lemma advance_le : forall lc m, le_pos lc (advance lc m).
Proof.
  intros lc m. unfold advance, le_pos.
  destruct (String.eqb (lastgroup m) "WHITESPACE");
    [|destruct (String.eqb (lastgroup m) "NEWLINE")]; simpl; lia.
Qed.

Lemma final_pos_le : forall ms lc, le_pos lc (final_pos lc ms).
Proof.
  induction ms as [|m ms IH]; intros lc.
  - apply le_pos_refl.
  - unfold final_pos. cbn [fold_left].
    eapply le_pos_trans; [apply advance_le|apply IH].
Qed.

Lemma advance_token : forall lc m,
  skipped m = false ->
  advance lc m = (fst lc, snd lc + length (group m)).
Proof.
  intros lc m H. unfold skipped in H. apply orb_false_iff in H.
  destruct H as [H1 H2]. unfold advance. now rewrite H1, H2.
Qed.

Lemma emitted_within : forall ms lc,
  Forall (fun m => match_of (lastgroup m) (group m)) ms ->
  Forall (within lc (final_pos lc ms)) (emitted lc ms).
Proof.
  induction ms as [|m ms IH]; intros lc Hall; [constructor|].
  inversion Hall as [|? ? (r & _ & _ & Hne) Hall']; subst.
  unfold final_pos. cbn [fold_left emitted].
  fold (final_pos (advance lc m) ms).
  assert (Hweak : Forall (within lc (final_pos (advance lc m) ms))
                    (emitted (advance lc m) ms)).
  { eapply Forall_impl; [|apply (IH _ Hall')].
    intros t (H1 & H2 & H3). repeat split; auto.
    eapply le_pos_trans; [apply advance_le|exact H1]. }
  destruct (skipped m) eqn:E; [exact Hweak|].
  constructor; [|exact Hweak].
  destruct (make_token_fields (lastgroup m) (group m) (fst lc) (snd lc))
    as (Hv & Hl & Hc).
  unfold within. rewrite Hv, Hl, Hc. repeat split.
  - destruct lc. apply le_pos_refl.
  - rewrite <- (advance_token lc m E). apply final_pos_le.
  - destruct (group m); [congruence|simpl; lia].
Qed.

Lemma emitted_sorted : forall ms lc,
  Forall (fun m => match_of (lastgroup m) (group m)) ms ->
  StronglySorted tok_before (emitted lc ms).
Proof.
  induction ms as [|m ms IH]; intros lc Hall; [constructor|].
  inversion Hall as [|? ? (r & _ & _ & Hne) Hall']; subst.
  cbn [emitted]. destruct (skipped m) eqn:E; [now apply IH|].
  constructor; [now apply IH|].
  eapply Forall_impl; [|apply (emitted_within ms _ Hall')].
  intros t (H1 & _ & _). rewrite (advance_token lc m E) in H1.
  destruct (make_token_fields (lastgroup m) (group m) (fst lc) (snd lc))
    as (Hv & Hl & Hc).
  unfold tok_before. rewrite Hv, Hl, Hc.
  assert (1 <= length (group m)) by (destruct (group m);
                                     [congruence|simpl; lia]).
  unfold le_pos in H1. simpl in H1. lia.
Qed.

Lemma StronglySorted_snoc : forall (A : Type) (R : A -> A -> Prop) l x,
  StronglySorted R l -> Forall (fun a => R a x) l ->
  StronglySorted R (l ++ [x]).
Proof.
  induction l as [|a l IH]; intros x Hs Hx; simpl.
  - repeat constructor.
  - inversion Hs; subst. inversion Hx; subst.
    constructor; [now apply IH|].
    apply Forall_app. split; auto.
Qed.

Lemma StronglySorted_filter : forall (A : Type) (R : A -> A -> Prop) f l,
  StronglySorted R l -> StronglySorted R (filter f l).
Proof.
  induction l as [|a l IH]; intros Hs; simpl; [constructor|].
  inversion Hs as [|? ? Hl Ha]; subst.
  destruct (f a); [|now apply IH].
  constructor; [now apply IH|].
  rewrite Forall_forall in *. intros x Hx.
  apply filter_In in Hx. now apply Ha.
Qed.

Lemma Forall_filter_weak : forall (A : Type) (P : A -> Prop) f l,
  Forall P l -> Forall P (filter f l).
Proof.
  intros A P f l H. rewrite Forall_forall in *. intros x Hx.
  apply filter_In in Hx. now apply H.
Qed.

Lemma emitted_values : forall ms lc,
  map value (emitted lc ms)
  = map group (filter (fun m => negb (skipped m)) ms).
Proof.
  induction ms as [|m ms IH]; intros lc; [reflexivity|].
  cbn [emitted filter]. destruct (skipped m); simpl; [apply IH|].
  f_equal; [|apply IH]. apply make_token_fields.
Qed.

(** The ranges of the matches of a scan: inside the scanned text, not
    empty, in increasing order and disjoint. *)
Lemma scan_spans : forall pos s,
  Forall (fun m =>
            pos <= start m /\ m_end m <= pos + length s
            /\ start m < m_end m
            /\ group m = firstn (length (group m)) (skipn (start m - pos) s))
         (scan pos s)
  /\ StronglySorted span_before (scan pos s).
Proof.
  intros pos s.
  apply scan_ind with (P := fun pos s ms =>
    Forall (fun m =>
              pos <= start m /\ m_end m <= pos + length s
              /\ start m < m_end m
              /\ group m
                 = firstn (length (group m)) (skipn (start m - pos) s)) ms
    /\ StronglySorted span_before ms); clear pos s.
  - intros pos. split; constructor.
  - intros pos c s _ [Hall Hs]. split; auto.
    eapply Forall_impl; [|exact Hall].
    intros m (H1 & H2 & H3 & H4). simpl. repeat split; try lia.
    replace (start m - pos) with (S (start m - S pos)) by lia.
    exact H4.
  - intros pos lex rest name _ (r & _ & _ & Hne) [Hall Hs].
    assert (Hlen : 1 <= length lex) by (destruct lex;
                                        [congruence|simpl; lia]).
    split.
    + constructor.
      * unfold m_end. cbn [start group]. rewrite length_app.
        repeat split; try lia.
        rewrite Nat.sub_diag, skipn_O, firstn_app, Nat.sub_diag.
        now rewrite firstn_all, firstn_O, app_nil_r.
      * eapply Forall_impl; [|exact Hall].
        intros m (H1 & H2 & H3 & H4). rewrite length_app.
        repeat split; try lia.
        rewrite skipn_app.
        rewrite (skipn_all2 lex) by lia. simpl.
        replace (start m - pos - length lex)
          with (start m - (pos + length lex)) by lia.
        exact H4.
    + constructor; auto.
      eapply Forall_impl; [|exact Hall].
      intros m (H1 & _). unfold span_before, m_end. cbn [start group]. lia.
Qed.

(** C9: for every input the tokens of the output are in strictly
    increasing (line, column) order, each token's lexeme ending before
    the next token on its line begins; and the tokens other than the
    [EOF] token are the lexemes of matches that cover ranges of the
    source which are not empty, increase strictly and do not overlap. *)
Theorem C9_position_monotonicity : forall src,
  StronglySorted tok_before (tokenize src)
  /\ map value (removelast (tokenize src)) = map group (token_matches src)
  /\ Forall (span_ok src) (token_matches src)
  /\ StronglySorted span_before (token_matches src).
Proof.
  intros src.
  pose proof (scan_match_of 0 src) as Hof.
  destruct (scan_spans 0 src) as [Hall Hs].
  rewrite <- finditer_scan in *.
  rewrite tokenize_spec. repeat split.
  - apply StronglySorted_snoc; [now apply emitted_sorted|].
    eapply Forall_impl; [|apply (emitted_within _ (1, 1) Hof)].
    intros t (_ & H2 & H3). unfold tok_before, le_pos in *.
    cbn [line column value fst snd] in *. lia.
  - rewrite removelast_last. apply emitted_values.
  - apply Forall_filter_weak. eapply Forall_impl; [|exact Hall].
    intros m (H1 & H2 & H3 & H4). unfold span_ok.
    rewrite Nat.sub_0_r in H4. auto.
  - now apply StronglySorted_filter.
Qed.

(* ================================================================= *)
(** ** Calling [analyze] again on the same instance (C10) *)

Lemma make_token_kind_value : forall name v l c l' c',
  kind_value (make_token name v l c) = kind_value (make_token name v l' c').
Proof.
  intros. unfold make_token.
  destruct (String.eqb name "IDENTIFIER");
    [destruct (in_keywords v)|destruct (TokenType_getitem name)];
    reflexivity.
Qed.



(* ================================================================= *)
(** * Further properties of the analyzer *)

(* ================================================================= *)
(** ** Tools: the rows of the table and the characters of a lexeme *)

Lemma all_ascii_complete : forall c, In c all_ascii.
Proof.
  intros c. unfold all_ascii. rewrite <- (ascii_nat_embedding c).
  apply in_map. apply in_seq. pose proof (nat_ascii_bounded c). lia.
Qed.

Lemma class_sub_sound : forall p q c,
  class_sub p q = true -> p c = true -> q c = true.
Proof.
  intros p q c H Hp. unfold class_sub in H. rewrite forallb_forall in H.
  specialize (H c (all_ascii_complete c)). rewrite Hp in H. exact H.
Qed.

Lemma forallb_class_sub : forall p q s,
  class_sub p q = true -> forallb p s = true -> forallb q s = true.
Proof.
  intros p q s H Hs. rewrite forallb_forall in *. intros c Hc.
  apply (class_sub_sound p q c H). now apply Hs.
Qed.

Lemma lex_chars_sound : forall q r lex,
  matches r lex -> lex_chars q r = true -> forallb q lex = true.
Proof.
  intros q r lex H. induction H; simpl; intros Hq.
  - now rewrite Hq.
  - now rewrite (class_sub_sound p q c Hq H).
  - apply andb_true_iff in Hq. destruct Hq as [H1 H2].
    rewrite forallb_app. now rewrite IHmatches1, IHmatches2.
  - apply andb_true_iff in Hq. now apply IHmatches.
  - apply andb_true_iff in Hq. now apply IHmatches.
  - now apply (forallb_class_sub p q).
  - rewrite (class_sub_sound p q c Hq H). now apply (forallb_class_sub p q).
  - now apply (forallb_class_sub p q).
Qed.

(** The match that [first_match] reports is the one its row's pattern
    finds. *)
Lemma first_match_exec : forall specs s name n,
  first_match specs s = Some (name, n) ->
  exists r, In (name, r) specs /\ exec r accept 0 s = Some n.
Proof.
  induction specs as [|[nm r] specs IH]; intros s name n H; simpl in H.
  - discriminate.
  - destruct (exec r accept 0 s) as [e|] eqn:E.
    + injection H as -> ->. exists r. simpl. auto.
    + destruct (IH _ _ _ H) as (r' & Hin & He). exists r'. simpl. auto.
Qed.

(** A row whose pattern matches makes [first_match] succeed. *)
Lemma first_match_complete : forall specs s name r n,
  In (name, r) specs -> exec r accept 0 s = Some n ->
  first_match specs s <> None.
Proof.
  induction specs as [|[nm r'] specs IH]; intros s name r n Hin He;
    simpl in *; [contradiction|].
  destruct (exec r' accept 0 s) eqn:E; [discriminate|].
  destruct Hin as [Hin|Hin]; [congruence|].
  now apply (IH s name r n).
Qed.

(** No group name is used by two rows. *)
Lemma token_specs_names : NoDup (map fst token_specs).
Proof.
  simpl. repeat (constructor; [simpl; intuition discriminate|]).
  constructor.
Qed.

(** Greedy repetition before the end of the pattern takes the whole
    run. *)
Lemma greedy_star_accept : forall p s n,
  greedy_star p accept n s = Some (n + run p s).
Proof.
  induction s as [|c s IH]; intros n; simpl.
  - unfold accept. now rewrite Nat.add_0_r.
  - destruct (p c).
    + rewrite IH. f_equal. lia.
    + unfold accept. now rewrite Nat.add_0_r.
Qed.

Lemma run_stop : forall p s c,
  nth_error s (run p s) = Some c -> p c = false.
Proof.
  induction s as [|x s IH]; intros c H; simpl in H.
  - discriminate.
  - destruct (p x) eqn:E; simpl in H; [now apply IH|congruence].
Qed.

(** Case analysis on the row of a match: [Hin] says the row is in the
    table; each row is handled by [tac]. *)
Ltac each_row Hin tac :=
  simpl in Hin;
  repeat (destruct Hin as [Hin|Hin];
          [injection Hin as <- <-; tac|]);
  try contradiction.

(* ================================================================= *)
(** ** The end marker and the number of tokens *)

Lemma make_token_not_eof : forall name r v l c,
  In (name, r) token_specs -> type (make_token name v l c) <> EOF.
Proof.
  intros name r v l c Hin.
  each_row Hin ltac:(unfold make_token; simpl;
                     try destruct (in_keywords v); simpl; congruence).
Qed.

(** X1: the list a fresh instance returns ends with the [EOF] token,
    whose lexeme is empty, and holds no other [EOF] token and no other
    token with an empty lexeme. *)
Theorem tokenize_eof_only_last : forall src,
  Forall (fun t => type t <> EOF /\ value t <> [])
         (removelast (tokenize src))
  /\ type (last (tokenize src) (mkToken UNKNOWN [] 0 0)) = EOF
  /\ value (last (tokenize src) (mkToken UNKNOWN [] 0 0)) = [].
Proof.
  intros src. rewrite tokenize_spec, removelast_last, last_last.
  split; [|split; reflexivity].
  apply emitted_Forall; [|rewrite finditer_scan; apply scan_match_of].
  intros name lex l c (r & Hin & _ & Hne). split.
  - now apply (make_token_not_eof name r).
  - now destruct (make_token_fields name lex l c) as (-> & _).
Qed.

Lemma emitted_length : forall ms lc, length (emitted lc ms) <= length ms.
Proof.
  induction ms as [|m ms IH]; intros lc; simpl; [lia|].
  destruct (skipped m); simpl; specialize (IH (advance lc m)); lia.
Qed.

Lemma matches_count : forall ms,
  Forall (fun m => match_of (lastgroup m) (group m)) ms ->
  length ms <= length (concat (map group ms)).
Proof.
  induction 1 as [|m ms (r & _ & _ & Hne) _ IH]; simpl; [lia|].
  rewrite length_app. destruct (group m); [congruence|simpl; lia].
Qed.

(** X2: a text of [n] characters gives at most [n] tokens and the
    [EOF] token. *)
Theorem tokenize_length_bound : forall src,
  length (tokenize src) <= length src + 1.
Proof.
  intros src. rewrite tokenize_spec, length_app, finditer_scan. simpl.
  pose proof (emitted_length (scan 0 src) (1, 1)).
  pose proof (matches_count _ (scan_match_of 0 src)).
  pose proof (reconstruct_length 0 src). lia.
Qed.

(* ================================================================= *)
(** ** The lexeme of a token, by its type *)

Lemma lit_lexeme : forall c lex, matches (Lit c) lex -> lex = [c].
Proof. intros c lex H. now inversion H. Qed.

Lemma lit2_lexeme : forall a b lex,
  matches (Cat (Lit a) (Lit b)) lex -> lex = [a; b].
Proof.
  intros a b lex H. inversion H as [| |? ? x y Hx Hy| | | | |]; subst.
  apply lit_lexeme in Hx, Hy. now subst.
Qed.

Lemma plus_lexeme : forall p lex,
  matches (Plus p) lex -> lex <> [] /\ forallb p lex = true.
Proof.
  intros p lex H. inversion H as [| | | | | |? c a Hc Ha|]; subst.
  split; [discriminate|]. simpl. now rewrite Hc, Ha.
Qed.

Lemma identifier_lexeme : forall lex,
  matches (Cat (Class is_ident_start) (Star is_ident_char)) lex ->
  ident_shape lex.
Proof.
  intros lex H. inversion H as [| |? ? x y Hx Hy| | | | |]; subst.
  inversion Hx; subst. inversion Hy; subst.
  exists c, y. auto.
Qed.

Lemma float_lexeme : forall lex,
  matches (Cat (Plus is_digit) (Cat (Lit ".") (Plus is_digit))) lex ->
  float_shape lex.
Proof.
  intros lex H. inversion H as [| |? ? x y Hx Hy| | | | |]; subst.
  inversion Hy as [| |? ? x' y' Hx' Hy'| | | | |]; subst.
  apply lit_lexeme in Hx'. subst x'.
  exists x, y'. split; [reflexivity|].
  split; now apply plus_lexeme.
Qed.

(** X3: a token is a [KEYWORD] exactly when its lexeme has the shape
    of an identifier and is in the keyword set: for every input, the
    lexeme of every [KEYWORD] token is a keyword, and the lexeme of
    every [IDENTIFIER] token has the shape of an identifier and is not
    a keyword. *)
Theorem keyword_identifier_classification : forall src,
  Forall (fun t =>
            (type t = KEYWORD -> In (value t) keywords)
            /\ (type t = IDENTIFIER ->
                ident_shape (value t) /\ ~ In (value t) keywords))
         (tokenize src).
Proof.
  intros src. apply tokenize_Forall;
    [|intros l c; split; discriminate].
  assert (Hkw : forall v, in_keywords v = true <-> In v keywords).
  { intros v. unfold in_keywords. rewrite existsb_exists. split.
    - intros (k & Hk & He). replace v with k; auto.
      clear Hk. revert k He.
      induction v as [|x v IH]; intros [|y k] He; simpl in He;
        try discriminate; auto.
      apply andb_true_iff in He. destruct He as [Hxy He].
      apply Ascii.eqb_eq in Hxy. subst. f_equal. now apply IH.
    - intros Hin. exists v. split; auto.
      clear Hin. induction v as [|x v IH]; simpl; auto.
      now rewrite Ascii.eqb_refl. }
  intros name lex l c (r & Hin & Hm & _).
  each_row Hin ltac:(unfold make_token; simpl;
                     try (split; discriminate)).
  destruct (in_keywords lex) eqn:E; simpl; split; intros Hty;
    try discriminate Hty.
  - now apply Hkw.
  - split; [now apply identifier_lexeme|].
    intros Hk. apply Hkw in Hk. congruence.
Qed.

(** X4: on source text whose characters are code points below 256,
    where the class [\d] of the patterns is exactly [0-9]: the lexeme
    of every [INTEGER] token is one digit [0-9] or more, and the lexeme
    of every [FLOAT] token is digits, a dot and digits, with a digit on
    both sides of the dot.  (Beyond that range [\d] also takes the
    decimal digits of other scripts, and the lexemes can hold them.) *)
Theorem numeric_literal_shapes : forall src,
  Forall (fun t =>
            (type t = INTEGER -> integer_shape (value t))
            /\ (type t = FLOAT -> float_shape (value t)))
         (tokenize src).
Proof.
  intros src. apply tokenize_Forall;
    [|intros l c; split; discriminate].
  intros name lex l c (r & Hin & Hm & _).
  each_row Hin ltac:(unfold make_token; simpl;
                     try (destruct (in_keywords lex); simpl;
                          split; intros H; discriminate H);
                     try (split; intros H; discriminate H)).
  - split; [intros H; discriminate H|]. intros _. now apply float_lexeme.
  - split; [|intros H; discriminate H]. intros _. now apply plus_lexeme.
Qed.

(** X5: the type of an operator or delimiter token determines its
    lexeme: for every input, a token of one of the seventeen operator
    and delimiter types carries exactly the text of its row. *)
Theorem operator_tokens_lexeme : forall src,
  Forall (fun t =>
            forall v, operator_lexeme (type t) = Some v -> value t = v)
         (tokenize src).
Proof.
  intros src. apply tokenize_Forall; [|intros l c v; discriminate].
  intros name lex l c (r & Hin & Hm & _).
  each_row Hin ltac:(unfold make_token; simpl;
                     try destruct (in_keywords lex); simpl;
                     intros v Hv; try discriminate Hv;
                     injection Hv as <-;
                     first [now apply lit2_lexeme in Hm
                           |now apply lit_lexeme in Hm]).
Qed.

(* ================================================================= *)
(** ** Longest match of identifiers and numbers *)

Lemma NoDup_fst_unique : forall (A B : Type) (l : list (A * B)) a b b',
  NoDup (map fst l) -> In (a, b) l -> In (a, b') l -> b = b'.
Proof.
  induction l as [|[x y] l IH]; intros a b b' Hnd H1 H2; simpl in *;
    [contradiction|].
  inversion Hnd as [|? ? Hnotin Hnd']; subst.
  destruct H1 as [H1|H1], H2 as [H2|H2].
  - congruence.
  - injection H1 as -> ->. exfalso. apply Hnotin.
    now apply (in_map fst) in H2.
  - injection H2 as -> ->. exfalso. apply Hnotin.
    now apply (in_map fst) in H1.
  - now apply (IH a).
Qed.

(** The match reported for a group is the one the pattern of its row
    finds. *)
Lemma match_at_row : forall s name n r,
  match_at s = Some (name, n) -> In (name, r) token_specs ->
  exec r accept 0 s = Some n.
Proof.
  intros s name n r H Hin.
  destruct (first_match_exec _ _ _ _ H) as (r' & Hin' & He).
  now rewrite (NoDup_fst_unique _ _ _ _ _ _ token_specs_names Hin Hin').
Qed.

Lemma identifier_next : forall s n c,
  exec (Cat (Class is_ident_start) (Star is_ident_char)) accept 0 s = Some n ->
  nth_error s n = Some c -> is_ident_char c = false.
Proof.
  intros s n c H Hc. cbn [exec] in H.
  destruct s as [|x s]; [discriminate|].
  destruct (is_ident_start x); [|discriminate].
  rewrite greedy_star_accept in H. injection H as <-.
  simpl in Hc. now apply run_stop in Hc.
Qed.

Lemma integer_next : forall s n k c,
  exec (Plus is_digit) accept k s = Some (k + n) ->
  nth_error s n = Some c -> is_digit c = false.
Proof.
  intros s n k c H Hc. cbn [exec] in H.
  destruct s as [|x s]; [discriminate|].
  destruct (is_digit x); [|discriminate].
  rewrite greedy_star_accept in H. injection H as H.
  replace n with (S (run is_digit s)) in Hc by lia.
  simpl in Hc. now apply run_stop in Hc.
Qed.

Lemma float_next : forall s n c,
  exec (Cat (Plus is_digit) (Cat (Lit ".") (Plus is_digit))) accept 0 s
  = Some n ->
  nth_error s n = Some c -> is_digit c = false.
Proof.
  intros s n c H Hc.
  change (exec (Plus is_digit)
            (exec (Cat (Lit ".") (Plus is_digit)) accept) 0 s = Some n) in H.
  destruct (exec_sound _ _ _ _ _ H) as (a & rest & -> & _ & Hk).
  cbn [exec] in Hk. destruct rest as [|x rest]; [discriminate|].
  destruct (Ascii.eqb x "."); [|discriminate].
  fold (exec (Plus is_digit) accept (S (0 + length a)) rest) in Hk.
  assert (Hle : S (length a) <= n).
  { destruct (exec_sound _ _ _ _ _ Hk) as (b & rest' & _ & _ & Hacc).
    unfold accept in Hacc. injection Hacc as <-. lia. }
  replace n with (S (0 + length a) + (n - S (length a))) in Hk by lia.
  apply (integer_next rest (n - S (length a)) _ c Hk).
  rewrite nth_error_app2 in Hc by lia.
  replace (n - length a) with (S (n - S (length a))) in Hc by lia.
  exact Hc.
Qed.

Lemma match_at_munch : forall s name n c,
  match_at s = Some (name, n) -> nth_error s n = Some c -> munch_ok name c.
Proof.
  intros s name n c H Hc. split.
  - intros ->. apply (identifier_next s n c); auto.
    apply (match_at_row s _ n _ H). simpl. tauto.
  - intros [-> | ->].
    + apply (integer_next s n 0 c); auto.
      apply (match_at_row s _ n _ H). simpl. tauto.
    + apply (float_next s n c); auto.
      apply (match_at_row s _ n _ H). simpl. tauto.
Qed.

Lemma scan_munch : forall pos s,
  Forall (fun m =>
            pos < m_end m
            /\ forall c, nth_error s (m_end m - pos) = Some c ->
                         munch_ok (lastgroup m) c)
         (scan pos s).
Proof.
  intros pos s.
  apply scan_ind with (P := fun pos s ms =>
    Forall (fun m =>
              pos < m_end m
              /\ forall c, nth_error s (m_end m - pos) = Some c ->
                           munch_ok (lastgroup m) c) ms); clear pos s.
  - constructor.
  - intros pos x s _ IH. eapply Forall_impl; [|exact IH].
    intros m [Hlt Hq]. split; [lia|]. intros c Hc. apply Hq.
    replace (m_end m - pos) with (S (m_end m - S pos)) in Hc by lia.
    exact Hc.
  - intros pos lex rest name E (r & _ & _ & Hne) IH.
    assert (Hlen : 1 <= length lex)
      by (destruct lex; [congruence|simpl; lia]).
    constructor.
    + unfold m_end. cbn [start group lastgroup]. split; [lia|].
      intros c Hc. replace (pos + length lex - pos) with (length lex) in Hc
        by lia.
      now apply (match_at_munch _ _ _ _ E).
    + eapply Forall_impl; [|exact IH].
      intros m [Hlt Hq]. split; [lia|]. intros c Hc. apply Hq.
      rewrite nth_error_app2 in Hc by lia.
      replace (m_end m - (pos + length lex))
        with (m_end m - pos - length lex) by lia.
      exact Hc.
Qed.

(** X6: identifiers and numbers are matched as far as they go.  For
    every input and every match a token is created for, the character
    of the source right after the match, when there is one, is not an
    identifier character if the match is an identifier or a keyword,
    and is not a digit if the match is an integer or a float. *)
Theorem longest_match_of_words_and_numbers : forall src,
  Forall (fun m =>
            forall c, nth_error src (m_end m) = Some c ->
                      munch_ok (lastgroup m) c)
         (token_matches src).
Proof.
  intros src. unfold token_matches. apply Forall_filter_weak.
  rewrite finditer_scan.
  eapply Forall_impl; [|apply (scan_munch 0 src)].
  intros m [_ Hq] c Hc. apply Hq. now rewrite Nat.sub_0_r.
Qed.

(* ================================================================= *)
(** ** Text in which nothing is lost *)

Lemma ident_char_cases : forall c,
  is_ident_char c = true -> is_ident_start c = true \/ is_digit c = true.
Proof.
  intros c. unfold is_ident_char, is_ident_start, is_digit.
  destruct (in_range "a" "z" c), (in_range "A" "Z" c),
    (in_range "0" "9" c), (Ascii.eqb c "_"); simpl; auto.
Qed.

Lemma covered_char_matches : forall c s,
  covered_char c = true -> match_at (c :: s) <> None.
Proof.
  intros c s H. unfold covered_char in H.
  assert (Hrow : forall name r n,
             In (name, r) token_specs ->
             exec r accept 0 (c :: s) = Some n ->
             match_at (c :: s) <> None).
  { intros name r n. apply first_match_complete. }
  apply orb_true_iff in H. destruct H as [H|H];
    [apply orb_true_iff in H; destruct H as [H|H];
     [apply orb_true_iff in H; destruct H as [H|H]|]|].
  - destruct (ident_char_cases c H) as [Hs|Hd].
    + eapply Hrow; [simpl; do 4 right; left; reflexivity|].
      cbn [exec]. rewrite Hs. apply greedy_star_accept.
    + eapply Hrow; [simpl; do 2 right; left; reflexivity|].
      cbn [exec]. rewrite Hd. apply greedy_star_accept.
  - eapply Hrow; [simpl; do 22 right; left; reflexivity|].
    cbn [exec]. rewrite H. apply greedy_star_accept.
  - eapply Hrow; [simpl; do 23 right; left; reflexivity|].
    cbn [exec]. rewrite H. reflexivity.
  - simpl in H.
    repeat (apply orb_true_iff in H; destruct H as [H|H]);
      try discriminate H;
      apply Ascii.eqb_eq in H; subst c;
      match goal with
      | |- match_at (?x :: _) <> None =>
          eapply (Hrow _ (Lit x) 1);
          [simpl; repeat (first [left; reflexivity|right])
          |cbn [exec]; rewrite Ascii.eqb_refl; reflexivity]
      end.
Qed.

(** X7: in a text made only of letters, digits, underscores, spaces,
    tabs, newlines and the characters [= + - * / < > ( ) { } ; ,] no
    character is passed over: the texts of the matches, in order, give
    the source back. *)
Theorem reconstruction_of_covered_text : forall src,
  forallb covered_char src = true -> reconstruct src = src.
Proof.
  intros src. unfold reconstruct. rewrite finditer_scan.
  apply scan_ind with (P := fun _ s ms =>
    forallb covered_char s = true -> concat (map group ms) = s).
  - reflexivity.
  - intros pos c s E _ H. simpl in H. apply andb_true_iff in H.
    destruct H as [Hc _]. now destruct (covered_char_matches c s Hc).
  - intros pos lex rest name _ _ IH H.
    rewrite forallb_app in H. apply andb_true_iff in H.
    destruct H as [_ Hrest]. cbn [map concat group]. now rewrite IH.
Qed.

Lemma reconstruction_of_covered_text_witness :
  forallb covered_char (str "int x = 10;") = true
  /\ reconstruct (str "int x = 10;") = str "int x = 10;".
Proof.
  split; [reflexivity|].
  apply (reconstruction_of_covered_text (str "int x = 10;")). reflexivity.
Defined.

(* ================================================================= *)
(** ** Newlines and the line counter *)

Lemma row_unique : forall name r r',
  In (name, r) token_specs -> In (name, r') token_specs -> r = r'.
Proof.
  intros name r r'. apply NoDup_fst_unique. apply token_specs_names.
Qed.

Lemma newlines_app : forall a b, newlines (a ++ b) = newlines a + newlines b.
Proof. intros a b. apply count_occ_app. Qed.

Lemma newlines_none : forall s,
  forallb is_dot s = true -> newlines s = 0.
Proof.
  induction s as [|c s IH]; intros H; [reflexivity|].
  simpl in H. apply andb_true_iff in H. destruct H as [Hc Hs].
  unfold newlines in *. simpl. destruct (ascii_dec c nl) as [->|_].
  - discriminate Hc.
  - now apply IH.
Qed.

(** The text of a [NEWLINE] match is one newline. *)
Lemma newline_lexeme : forall lex,
  match_of "NEWLINE" lex -> lex = [nl].
Proof.
  intros lex (r & Hin & Hm & _).
  assert (r = Lit nl) by (apply (row_unique "NEWLINE"); simpl; tauto).
  subst r. now apply lit_lexeme.
Qed.

(** The text of a [WHITESPACE] match holds no newline. *)
Lemma whitespace_lexeme : forall lex,
  match_of "WHITESPACE" lex -> forallb is_dot lex = true.
Proof.
  intros lex (r & Hin & Hm & _).
  assert (r = Plus is_blank) by (apply (row_unique "WHITESPACE"); simpl; tauto).
  subst r. now apply (lex_chars_sound is_dot _ _ Hm).
Qed.

Lemma newline_matches : forall s, match_at (nl :: s) <> None.
Proof. intros s. now apply covered_char_matches. Qed.

Lemma scan_newlines : forall pos s lc,
  fst (final_pos lc (scan pos s))
    + newlines (concat (map value (emitted lc (scan pos s))))
  = fst lc + newlines s.
Proof.
  intros pos s.
  apply scan_ind with (P := fun _ s ms => forall lc,
    fst (final_pos lc ms) + newlines (concat (map value (emitted lc ms)))
    = fst lc + newlines s); clear pos s.
  - intros _ lc. simpl. lia.
  - intros pos c s E IH lc. rewrite IH.
    unfold newlines. simpl. destruct (ascii_dec c nl) as [->|_]; [|reflexivity].
    now destruct (newline_matches s).
  - intros pos lex rest name _ Hof IH lc.
    unfold final_pos. cbn [fold_left emitted].
    fold (final_pos (advance lc (mkMatch name pos lex))
            (scan (pos + length lex) rest)).
    rewrite newlines_app.
    unfold skipped, advance. cbn [lastgroup group].
    destruct (String.eqb name "WHITESPACE") eqn:Ew.
    + apply String.eqb_eq in Ew. subst name. simpl orb. cbv iota.
      rewrite IH. cbn [fst].
      now rewrite (newlines_none _ (whitespace_lexeme _ Hof)).
    + destruct (String.eqb name "NEWLINE") eqn:En.
      * apply String.eqb_eq in En. subst name. simpl orb. cbv iota.
        rewrite IH. cbn [fst]. rewrite (newline_lexeme _ Hof).
        unfold newlines. simpl. lia.
      * simpl orb. cbv iota. cbn [map concat]. rewrite newlines_app.
        destruct (make_token_fields name lex (fst lc) (snd lc)) as (-> & _).
        specialize (IH (fst lc, snd lc + length lex)). cbn [fst] in IH. lia.
Qed.

(** X8: the account of the newlines.  For every input, the line of the
    [EOF] token, less one, and the newlines that lie inside the lexemes
    of the tokens add up to the newlines of the source: a newline is
    counted by the line counter exactly when it is not inside a
    token. *)
Theorem newline_account : forall src,
  line (last (tokenize src) (mkToken UNKNOWN [] 0 0))
    + newlines (concat (map value (tokenize src)))
  = 1 + newlines src.
Proof.
  intros src. rewrite tokenize_spec, last_last, map_app, concat_app.
  rewrite newlines_app. cbn [line map concat value app].
  rewrite finditer_scan.
  pose proof (scan_newlines 0 src (1, 1)) as H. cbn [fst] in H.
  unfold newlines at 2. simpl. lia.
Qed.

(* ================================================================= *)
(** ** Text in which the recorded positions are exact *)

Lemma true_pos_app : forall a b lc,
  true_pos lc (a ++ b) = true_pos (true_pos lc a) b.
Proof. intros a b lc. unfold true_pos. apply fold_left_app. Qed.

Lemma true_pos_no_newline : forall s lc,
  forallb is_dot s = true -> true_pos lc s = (fst lc, snd lc + length s).
Proof.
  induction s as [|c s IH]; intros lc H.
  - simpl. destruct lc. simpl. now rewrite Nat.add_0_r.
  - simpl in H. apply andb_true_iff in H. destruct H as [Hc Hs].
    unfold is_dot in Hc. apply negb_true_iff in Hc.
    unfold true_pos in *. cbn [fold_left]. rewrite Hc, (IH _ Hs).
    cbn [fst snd length]. f_equal. lia.
Qed.

Lemma closes_app_r : forall a b, closes (a ++ b) = false -> closes b = false.
Proof.
  induction a as [|c a IH]; intros b H; [exact H|].
  cbn [app closes] in H. apply orb_false_iff in H. now apply IH.
Qed.

Lemma closes_closing : forall a b, closes (a ++ str "*/" ++ b) = true.
Proof.
  induction a as [|c a IH]; intros b.
  - reflexivity.
  - cbn [app closes]. rewrite IH. apply orb_true_r.
Qed.

(** In a text of covered characters with no closing delimiter of a
    block comment, only the text of a [NEWLINE] match holds a
    newline. *)
Lemma clean_lexeme : forall name lex rest,
  match_of name lex ->
  forallb covered_char (lex ++ rest) = true ->
  closes (lex ++ rest) = false ->
  name <> "NEWLINE"%string -> forallb is_dot lex = true.
Proof.
  intros name lex rest (r & Hin & Hm & Hne) Hcov Hcl Hname.
  each_row Hin ltac:(try (now apply (lex_chars_sound is_dot _ _ Hm))).
  - apply comment_lexeme in Hm. destruct Hm as [(body & -> & Hb)|(body & ->)].
    + exact Hb.
    + exfalso. change ((str "/*" ++ body ++ str "*/") ++ rest)
        with (str "/*" ++ (body ++ str "*/") ++ rest) in Hcl.
      apply closes_app_r in Hcl. rewrite <- app_assoc in Hcl.
      now rewrite closes_closing in Hcl.
  - apply string_lexeme in Hm. destruct Hm as (body & -> & _).
    discriminate Hcov.
Qed.

Lemma advance_clean : forall name pos lex rest lc,
  match_of name lex ->
  forallb covered_char (lex ++ rest) = true ->
  closes (lex ++ rest) = false ->
  advance lc (mkMatch name pos lex) = true_pos lc lex.
Proof.
  intros name pos lex rest lc Hof Hcov Hcl.
  unfold advance. cbn [lastgroup group].
  destruct (String.eqb name "NEWLINE") eqn:En.
  - apply String.eqb_eq in En. subst name.
    rewrite (newline_lexeme _ Hof). reflexivity.
  - apply String.eqb_neq in En.
    rewrite (true_pos_no_newline lex lc
               (clean_lexeme name lex rest Hof Hcov Hcl En)).
    now destruct (String.eqb name "WHITESPACE").
Qed.

Lemma scan_positions : forall pos s,
  forallb covered_char s = true -> closes s = false ->
  forall lc,
    final_pos lc (scan pos s) = true_pos lc s
    /\ map token_pos (emitted lc (scan pos s))
       = map (fun m => true_pos lc (firstn (start m - pos) s))
             (filter (fun m => negb (skipped m)) (scan pos s)).
Proof.
  intros pos s.
  apply scan_ind with (P := fun pos s ms =>
    forallb covered_char s = true -> closes s = false ->
    forall lc,
      final_pos lc ms = true_pos lc s
      /\ map token_pos (emitted lc ms)
         = map (fun m => true_pos lc (firstn (start m - pos) s))
               (filter (fun m => negb (skipped m)) ms)); clear pos s.
  - intros pos _ _ lc. split; reflexivity.
  - intros pos c s E _ H. simpl in H. apply andb_true_iff in H.
    destruct H as [Hc _]. now destruct (covered_char_matches c s Hc).
  - intros pos lex rest name _ Hof IH Hcov Hcl lc.
    pose proof (advance_clean name pos lex rest lc Hof Hcov Hcl) as Hadv.
    assert (Hcov' : forallb covered_char rest = true).
    { rewrite forallb_app in Hcov. now apply andb_true_iff in Hcov. }
    destruct (IH Hcov' (closes_app_r _ _ Hcl) (true_pos lc lex))
      as [IHf IHt].
    assert (Htail :
      map (fun m => true_pos (true_pos lc lex)
                      (firstn (start m - (pos + length lex)) rest))
          (filter (fun m => negb (skipped m)) (scan (pos + length lex) rest))
      = map (fun m => true_pos lc (firstn (start m - pos) (lex ++ rest)))
          (filter (fun m => negb (skipped m))
             (scan (pos + length lex) rest))).
    { apply map_ext_in. intros m Hin. apply filter_In in Hin.
      destruct Hin as [Hin _].
      destruct (scan_spans (pos + length lex) rest) as [Hall _].
      rewrite Forall_forall in Hall. destruct (Hall m Hin) as (Hge & _).
      rewrite <- true_pos_app. f_equal.
      rewrite firstn_app, (firstn_all2 lex) by lia. f_equal. f_equal. lia. }
    split.
    + unfold final_pos. cbn [fold_left]. rewrite Hadv.
      fold (final_pos (true_pos lc lex) (scan (pos + length lex) rest)).
      now rewrite IHf, true_pos_app.
    + cbn [emitted filter]. rewrite Hadv.
      destruct (skipped (mkMatch name pos lex)); cbn [negb map].
      * now rewrite IHt, Htail.
      * rewrite IHt, Htail. f_equal.
        cbn [start]. rewrite Nat.sub_diag. cbn [firstn].
        unfold token_pos. cbn [lastgroup group].
        destruct (make_token_fields name lex (fst lc) (snd lc))
          as (_ & -> & ->).
        now destruct lc.
Qed.

(** X9: where the recorded positions are exact.  In a text made only
    of covered characters that holds no closing delimiter of a block
    comment, every token is recorded at the line and column at which
    its match begins in the source, and the [EOF] token at the line and
    column of the end of the source. *)
Theorem positions_exact_on_clean_text : forall src,
  forallb covered_char src = true -> closes src = false ->
  map token_pos (removelast (tokenize src))
  = map (fun m => true_pos (1, 1) (firstn (start m) src)) (token_matches src)
  /\ token_pos (last (tokenize src) (mkToken UNKNOWN [] 0 0))
     = true_pos (1, 1) src.
Proof.
  intros src Hcov Hcl.
  destruct (scan_positions 0 src Hcov Hcl (1, 1)) as [Hf Ht].
  rewrite tokenize_spec, removelast_last, last_last.
  unfold token_matches. change (finditer src) with (scan 0 src). split.
  - rewrite Ht. apply map_ext. intros m. now rewrite Nat.sub_0_r.
  - unfold token_pos. cbn [line column]. rewrite Hf.
    now destruct (true_pos (1, 1) src).
Qed.

Lemma positions_exact_on_clean_text_witness :
  forallb covered_char (str "a = 1;" ++ nl :: str "  b") = true
  /\ closes (str "a = 1;" ++ nl :: str "  b") = false
  /\ map token_pos (removelast (tokenize (str "a = 1;" ++ nl :: str "  b")))
     = [ (1, 1); (1, 3); (1, 5); (1, 6); (2, 3) ]
  /\ token_pos (last (tokenize (str "a = 1;" ++ nl :: str "  b"))
                  (mkToken UNKNOWN [] 0 0))
     = (2, 4).
Proof.
  split; [reflexivity|]. split; [reflexivity|].
  exact (positions_exact_on_clean_text
           (str "a = 1;" ++ nl :: str "  b") eq_refl eq_refl).
Defined.

(* ================================================================= *)
(** ** [current_char] and the state [analyze] leaves alone *)

(** X10: [analyze] never moves [position] and never changes [source],
    so [current_char] gives the same answer after the call as before;
    on an instance made by the constructor that answer is the first
    character of the source, and nothing when the source is empty. *)
Theorem analyze_never_moves_position : forall self src,
  source (analyze self) = source self
  /\ position (analyze self) = position self
  /\ current_char (analyze self) = current_char self
  /\ current_char (analyze (init src)) = hd_error src.
Proof.
  intros self src.
  assert (H : forall a, source (analyze a) = source a
                        /\ position (analyze a) = position a)
    by (intros a; rewrite analyze_spec; split; reflexivity).
  assert (Hc : forall a, current_char (analyze a) = current_char a).
  { intros a. unfold current_char. destruct (H a) as [-> ->]. reflexivity. }
  destruct (H self) as [Hs Hp]. repeat split; auto.
  rewrite Hc. unfold current_char, init. cbn [position source].
  destruct src; reflexivity.
Qed.

(* ================================================================= *)
(** ** The report of [print_tokens] *)

Lemma listed_all : forall toks,
  Forall (fun t => type t <> EOF) toks -> listed toks = toks.
Proof.
  induction 1 as [|t toks Ht _ IH]; [reflexivity|].
  unfold listed in *. cbn [filter]. rewrite IH.
  destruct (type t); try reflexivity. congruence.
Qed.

Lemma listed_app : forall a b, listed (a ++ b) = listed a ++ listed b.
Proof. intros a b. apply filter_app. Qed.

Lemma emitted_no_eof : forall pos s lc,
  Forall (fun t => type t <> EOF) (emitted lc (scan pos s)).
Proof.
  intros pos s lc. apply emitted_Forall; [|apply scan_match_of].
  intros name lex l c (r & Hin & _). now apply (make_token_not_eof name r).
Qed.



(** X12: the total is [len(self.tokens) - 1] whatever the list holds.
    Before any call of [analyze] the report lists no token and prints
    the total [-1]; after two calls on the same instance the total is
    one more than the number of tokens listed. *)
Theorem print_tokens_total_off_by_one : forall src,
  print_tokens (init src)
  = [ nl :: repeat "="%char 70;
      str "LEXICAL ANALYSIS RESULTS";
      repeat "="%char 70;
      str "Token Type           Lexeme               Line     Column  ";
      repeat "-"%char 70;
      repeat "="%char 70;
      str "Total Tokens: -1";
      repeat "="%char 70 ]
  /\ total_tokens (analyze (analyze (init src)))
     = (Z.of_nat (length (listed (tokens (analyze (analyze (init src))))))
        + 1)%Z.
Proof.
  intros src. split; [reflexivity|].
  unfold total_tokens.
  rewrite (analyze_spec (analyze (init src))).
  rewrite (analyze_spec (init src)).
  cbn [tokens source counters init app cur_line cur_column].
  change (finditer src) with (scan 0 src).
  rewrite !listed_app, !(listed_all _ (emitted_no_eof 0 src _)).
  rewrite !length_app. cbn [listed filter type is_EOF negb length]. lia.
Qed.

(* ================================================================= *)
(** ** [Token.__str__] tells tokens apart *)

Lemma TokenType_value_inj : forall a b,
  TokenType_value a = TokenType_value b -> a = b.
Proof. intros a b H. destruct a, b; try reflexivity; discriminate H. Qed.

Lemma TokenType_value_no_comma : forall ty,
  forallb (fun c => negb (Ascii.eqb c ",")) (str (TokenType_value ty)) = true.
Proof. intros ty. destruct ty; reflexivity. Qed.

Lemma str_inj : forall a b, str a = str b -> a = b.
Proof.
  intros a b H. unfold str in H.
  rewrite <- (string_of_list_ascii_of_string a).
  rewrite <- (string_of_list_ascii_of_string b). now rewrite H.
Qed.

Lemma uint_digits : forall d,
  forallb is_digit (str (NilEmpty.string_of_uint d)) = true.
Proof. induction d; simpl; auto. Qed.

Lemma str_of_nat_digits : forall n, forallb is_digit (str_of_nat n) = true.
Proof. intros n. apply uint_digits. Qed.

Lemma str_of_nat_inj : forall n m, str_of_nat n = str_of_nat m -> n = m.
Proof.
  intros n m H. apply str_inj in H.
  apply DecimalNat.Unsigned.to_uint_inj.
  pose proof (NilEmpty.usu (Nat.to_uint n)) as Hn.
  rewrite H, NilEmpty.usu in Hn. congruence.
Qed.

(** Two texts that begin with a run of the class [p] ended by a
    character outside it are equal only if the runs are. *)
Lemma split_run : forall (p : ascii -> bool) a b x y u v,
  forallb p a = true -> forallb p b = true ->
  p x = false -> p y = false ->
  a ++ x :: u = b ++ y :: v -> a = b /\ x :: u = y :: v.
Proof.
  intros p. induction a as [|c a IH]; intros [|d b] x y u v Ha Hb Hx Hy H;
    simpl in *.
  - auto.
  - injection H as Hxd _. subst d.
    apply andb_true_iff in Hb. destruct Hb as [Hb _]. congruence.
  - injection H as Hcy _. subst c.
    apply andb_true_iff in Ha. destruct Ha as [Ha _]. congruence.
  - injection H as Hcd H. subst d.
    apply andb_true_iff in Ha, Hb. destruct Ha as [_ Ha], Hb as [_ Hb].
    destruct (IH b x y u v Ha Hb Hx Hy H) as [-> ->]. auto.
Qed.

Lemma forallb_rev : forall (p : ascii -> bool) s,
  forallb p s = true -> forallb p (rev s) = true.
Proof.
  intros p s H. rewrite forallb_forall in *. intros c Hc.
  apply H. now apply in_rev.
Qed.

Lemma rev_inj : forall (a b : list ascii), rev a = rev b -> a = b.
Proof.
  intros a b H. rewrite <- (rev_involutive a), <- (rev_involutive b).
  now rewrite H.
Qed.

(** X13: [Token.__str__] is one to one: two tokens with the same text
    have the same type, lexeme, line and column, whatever characters
    the lexemes hold. *)
Theorem Token_str_injective : forall t1 t2,
  Token_str t1 = Token_str t2 -> t1 = t2.
Proof.
  intros [ty1 v1 l1 c1] [ty2 v2 l2 c2] H. unfold Token_str in H.
  cbn [type value line column] in H.
  (* the type, up to the first comma *)
  apply app_inv_head in H.
  change (str ", '") with (","%char :: str " '") in H. cbn [app] in H.
  destruct (split_run (fun c => negb (Ascii.eqb c ","))
              _ _ ","%char ","%char _ _
              (TokenType_value_no_comma ty1) (TokenType_value_no_comma ty2)
              eq_refl eq_refl H) as [Hty Hrest].
  apply str_inj, TokenType_value_inj in Hty. subst ty2.
  assert (Htail :
    v1 ++ str "', Line:" ++ str_of_nat l1 ++ str ", Col:"
       ++ str_of_nat c1 ++ str ">"
    = v2 ++ str "', Line:" ++ str_of_nat l2 ++ str ", Col:"
         ++ str_of_nat c2 ++ str ">")
    by (injection Hrest as Hrest; exact Hrest).
  clear H Hrest.
  (* the rest, read from its end *)
  apply (f_equal (@rev ascii)) in Htail.
  rewrite !rev_app_distr, <- !app_assoc in Htail.
  apply app_inv_head in Htail.
  change (rev (str ", Col:")) with (":"%char :: str "loC ,") in Htail.
  cbn [app] in Htail.
  destruct (split_run is_digit _ _ ":"%char ":"%char _ _
              (forallb_rev _ _ (str_of_nat_digits c1))
              (forallb_rev _ _ (str_of_nat_digits c2))
              eq_refl eq_refl Htail) as [Hc Hrest].
  apply rev_inj, str_of_nat_inj in Hc. subst c2.
  assert (Htail2 :
    rev (str_of_nat l1) ++ ":"%char :: str "eniL ,'" ++ rev v1
    = rev (str_of_nat l2) ++ ":"%char :: str "eniL ,'" ++ rev v2)
    by (injection Hrest as Hrest; exact Hrest).
  clear Htail Hrest.
  destruct (split_run is_digit _ _ ":"%char ":"%char _ _
              (forallb_rev _ _ (str_of_nat_digits l1))
              (forallb_rev _ _ (str_of_nat_digits l2))
              eq_refl eq_refl Htail2) as [Hl Hrest].
  apply rev_inj, str_of_nat_inj in Hl. subst l2.
  assert (Hv : rev v1 = rev v2)
    by (injection Hrest as Hrest; exact Hrest).
  apply rev_inj in Hv. now subst v2.
Qed.

Lemma Token_str_injective_witness :
  mkToken COMMENT (str "// ', Line:1, Col:1>") 1 1
  = mkToken COMMENT (str "// ', Line:1, Col:1>") 1 1.
Proof.
  apply (Token_str_injective
           (mkToken COMMENT (str "// ', Line:1, Col:1>") 1 1)
           (mkToken COMMENT (str "// ', Line:1, Col:1>") 1 1)).
  reflexivity.
Defined.

(* ================================================================= *)
(** ** Empty and blank sources *)

Lemma match_at_layout : forall c s,
  is_layout c = true ->
  exists n, match_at (c :: s) = Some ("WHITESPACE"%string, n)
            \/ match_at (c :: s) = Some ("NEWLINE"%string, n).
Proof.
  intros c s H. unfold is_layout, is_blank in H.
  repeat (apply orb_true_iff in H; destruct H as [H|H]);
    apply Ascii.eqb_eq in H; subst c.
  - exists (1 + run is_blank s). left.
    unfold match_at, token_specs. cbn.
    now rewrite greedy_star_accept.
  - exists (1 + run is_blank s). left.
    unfold match_at, token_specs. cbn.
    now rewrite greedy_star_accept.
  - exists 1. right. reflexivity.
Qed.

Lemma layout_covered : forall s,
  forallb is_layout s = true ->
  forallb covered_char s = true /\ closes s = false.
Proof.
  induction s as [|c s IH]; intros H; [split; reflexivity|].
  simpl in H. apply andb_true_iff in H. destruct H as [Hc Hs].
  destruct (IH Hs) as [IH1 IH2]. cbn [forallb closes]. rewrite IH1, IH2.
  unfold is_layout, is_blank in Hc.
  repeat (apply orb_true_iff in Hc; destruct Hc as [Hc|Hc]);
    apply Ascii.eqb_eq in Hc; subst c; split; reflexivity.
Qed.

Lemma scan_layout : forall pos s lc,
  forallb is_layout s = true -> emitted lc (scan pos s) = [].
Proof.
  intros pos s.
  apply scan_ind with (P := fun _ s ms => forall lc,
    forallb is_layout s = true -> emitted lc ms = []); clear pos s.
  - reflexivity.
  - intros pos c s _ IH lc H. simpl in H. apply andb_true_iff in H.
    now apply IH.
  - intros pos lex rest name E (r & _ & _ & Hne) IH lc H.
    destruct lex as [|c lex]; [congruence|].
    cbn [app forallb] in H. apply andb_true_iff in H. destruct H as [Hc Hs].
    assert (Hrest : forallb is_layout rest = true).
    { rewrite forallb_app in Hs. now apply andb_true_iff in Hs. }
    cbn [emitted]. unfold skipped. cbn [lastgroup].
    destruct (match_at_layout c (lex ++ rest) Hc) as (n & [Hn|Hn]);
      cbn [app] in E; rewrite Hn in E; injection E as <- _;
      simpl orb; cbv iota; now apply IH.
Qed.

(** X14: a source with nothing but spaces, tabs and newlines, the empty
    source among them, gives the [EOF] token alone, at the line and
    column of the end of the source; for the empty source that is
    line 1, column 1. *)
Theorem tokenize_blank_source : forall src,
  forallb is_layout src = true ->
  tokenize src
  = [ mkToken EOF [] (fst (true_pos (1, 1) src)) (snd (true_pos (1, 1) src)) ]
  /\ tokenize [] = [ mkToken EOF [] 1 1 ].
Proof.
  intros src H. split; [|reflexivity].
  destruct (layout_covered src H) as [Hcov Hcl].
  destruct (scan_positions 0 src Hcov Hcl (1, 1)) as [Hf _].
  rewrite tokenize_spec. change (finditer src) with (scan 0 src).
  now rewrite (scan_layout 0 src (1, 1) H), Hf.
Qed.

Lemma tokenize_blank_source_witness :
  forallb is_layout (str "  " ++ nl :: str " ") = true
  /\ tokenize (str "  " ++ nl :: str " ") = [ mkToken EOF [] 2 2 ]
  /\ tokenize [] = [ mkToken EOF [] 1 1 ].
Proof.
  split; [reflexivity|].
  exact (tokenize_blank_source (str "  " ++ nl :: str " ") eq_refl).
Defined.

(* ================================================================= *)
(** ** No row of the table is dead *)

(** X15: the order of the rows hides none of them: for every row of
    [token_specs] there is a text that the combined pattern matches
    whole with that row's group. *)
Theorem every_row_can_match :
  Forall (fun row =>
            exists s, match_at s = Some (fst row, length s))
         token_specs.
Proof.
  unfold token_specs.
  repeat (constructor;
          [first
             [ now exists (str "//") | now exists (str "1.5")
             | now exists (str "1") | now exists [dquote; dquote]
             | now exists (str "a") | now exists (str ">=")
             | now exists (str "<=") | now exists (str "==")
             | now exists (str "!=") | now exists (str "=")
             | now exists (str "+") | now exists (str "-")
             | now exists (str "*") | now exists (str "/")
             | now exists (str "<") | now exists (str ">")
             | now exists (str "(") | now exists (str ")")
             | now exists (str "{") | now exists (str "}")
             | now exists (str ";") | now exists (str ",")
             | now exists (str " ") | now exists [nl] ]|]).
  constructor.
Qed.

(* ================================================================= *)
(** ** Comments are kept, whitespace is not (C1) *)

Lemma lexes_at_intro : forall lex ty name rest,
  match_at (lex ++ rest) = Some (name, length lex) ->
  skipped (mkMatch name 0 lex) = false ->
  (forall l c, make_token name lex l c = mkToken ty lex l c) ->
  lexes_at lex ty rest.
Proof.
  intros lex ty name rest Hm Hs Ht pos self.
  rewrite (scan_match pos _ _ _ Hm). cbn [fold_left]. f_equal.
  unfold loop_body, skipped in *. cbn [lastgroup group] in *.
  apply orb_false_iff in Hs. destruct Hs as [-> ->]. now rewrite Ht.
Qed.

Lemma run_app_stop : forall p a rest,
  forallb p a = true ->
  match rest with [] => True | c :: _ => p c = false end ->
  run p (a ++ rest) = length a.
Proof.
  induction a as [|x a IH]; intros rest Ha Hr.
  - destruct rest as [|c rest]; [reflexivity|]. simpl. now rewrite Hr.
  - simpl in Ha. apply andb_true_iff in Ha. destruct Ha as [Hx Ha].
    simpl. rewrite Hx. f_equal. now apply IH.
Qed.

(** A line comment is matched up to the end of its line. *)
Lemma match_at_line_comment : forall body rest,
  forallb is_dot body = true -> line_end rest = true ->
  match_at ((str "//" ++ body) ++ rest)
  = Some ("COMMENT"%string, length (str "//" ++ body)).
Proof.
  intros body rest Hb Hr. unfold match_at, token_specs.
  cbn [str list_ascii_of_string app first_match]. cbn [exec].
  change (Ascii.eqb "/" "/") with true. cbv iota.
  rewrite greedy_star_accept, run_app_stop; auto.
  destruct rest as [|c rest]; [exact I|].
  simpl in Hr. unfold is_dot. now rewrite Hr.
Qed.

(** The lazy body of a block comment stops at the first closing
    delimiter. *)
Lemma lazy_star_first_close : forall body rest n,
  closes (body ++ str "*") = false ->
  lazy_star is_any (exec (Cat (Lit "*") (Lit "/")) accept) n
    (body ++ str "*/" ++ rest)
  = Some (n + length body + 2).
Proof.
  induction body as [|c body IH]; intros rest n H.
  - simpl. unfold accept. f_equal. lia.
  - cbn [app closes] in H. apply orb_false_iff in H. destruct H as [H1 H2].
    change ((c :: body) ++ str "*/" ++ rest)
      with (c :: (body ++ str "*/" ++ rest)).
    assert (Hk : exec (Cat (Lit "*") (Lit "/")) accept n
                   (c :: (body ++ str "*/" ++ rest)) = None).
    { cbn [exec]. destruct (Ascii.eqb c "*"); [|reflexivity].
      destruct body as [|x body]; [reflexivity|].
      simpl in H1. cbn [app]. now rewrite H1. }
    set (k := exec (Cat (Lit "*") (Lit "/")) accept) in *.
    cbn [lazy_star]. rewrite Hk, is_any_true, (IH rest (S n) H2).
    f_equal. simpl. lia.
Qed.

(** A block comment is matched up to its first closing delimiter. *)
Lemma match_at_block_comment : forall body rest,
  closes (body ++ str "*") = false ->
  match_at ((str "/*" ++ body ++ str "*/") ++ rest)
  = Some ("COMMENT"%string, length (str "/*" ++ body ++ str "*/")).
Proof.
  intros body rest H.
  replace ((str "/*" ++ body ++ str "*/") ++ rest)
    with ("/"%char :: "*"%char :: (body ++ str "*/" ++ rest))
    by (cbn [str list_ascii_of_string app]; now rewrite <- app_assoc).
  unfold match_at, token_specs. cbn [first_match]. cbn [exec].
  change (lazy_star is_any _ 2 (body ++ str "*/" ++ rest))
    with (lazy_star is_any (exec (Cat (Lit "*") (Lit "/")) accept) 2
            (body ++ str "*/" ++ rest)).
  rewrite (lazy_star_first_close body rest 2 H).
  change (Ascii.eqb "/" "/") with true.
  change (Ascii.eqb "*" "/") with false.
  change (Ascii.eqb "*" "*") with true. cbv iota.
  f_equal. f_equal. cbn [str list_ascii_of_string app length].
  rewrite length_app. simpl. lia.
Qed.

(** The tokens the loop creates are, in order, those of the matches
    that are neither whitespace nor newlines. *)
Lemma emitted_match_kind_value : forall ms lc,
  map kind_value (emitted lc ms)
  = map match_kind_value (filter (fun m => negb (skipped m)) ms).
Proof.
  induction ms as [|m ms IH]; intros lc; [reflexivity|].
  cbn [emitted filter]. destruct (skipped m); cbn [negb map]; [apply IH|].
  f_equal; [apply make_token_kind_value|apply IH].
Qed.

Lemma emitted_In : forall ms lc m,
  In m ms -> skipped m = false ->
  exists l c, In (make_token (lastgroup m) (group m) l c) (emitted lc ms).
Proof.
  induction ms as [|x ms IH]; intros lc m Hin Hs; [contradiction|].
  cbn [emitted]. destruct Hin as [->|Hin].
  - rewrite Hs. exists (fst lc), (snd lc). now left.
  - destruct (IH (advance lc x) m Hin Hs) as (l & c & H).
    exists l, c. destruct (skipped x); [exact H|now right].
Qed.

(** C1, amended: for every input no token of the whitespace kind
    appears in the output of tokenization, and the tokens before the
    [EOF] token are, in order, exactly those of the matches that are
    neither whitespace nor newlines.  A comment is not suppressed: every
    match of the comment rule creates a [COMMENT] token whose lexeme is
    the text of the comment; wherever the scanner stands, at a line
    comment (two slashes up to the end of the line) and at a block
    comment (up to its first closing delimiter) it creates one
    [COMMENT] token for it.  Tokenizing ["int x ; // trailing\n"] yields
    the tokens for [int], [x], [;], a [COMMENT] token with lexeme
    ["// trailing"], then the [EOF] token. *)
Theorem C1_whitespace_suppressed_comment_kept :
  forall src line_body block_body rest,
  forallb is_dot line_body = true -> line_end rest = true ->
  closes (block_body ++ str "*") = false ->
  Forall (fun t => type t <> WHITESPACE) (tokenize src)
  /\ map kind_value (removelast (tokenize src))
     = map match_kind_value (token_matches src)
  /\ Forall (fun m =>
               lastgroup m = "COMMENT"%string ->
               match_kind_value m = (COMMENT, group m)
               /\ exists l c,
                    In (mkToken COMMENT (group m) l c) (tokenize src))
            (finditer src)
  /\ lexes_at (str "//" ++ line_body) COMMENT rest
  /\ lexes_first (str "/*" ++ block_body ++ str "*/") COMMENT
  /\ tokenize C1_input
     = [ mkToken KEYWORD (str "int") 1 1; mkToken IDENTIFIER (str "x") 1 5;
         mkToken SEMICOLON (str ";") 1 7;
         mkToken COMMENT (str "// trailing") 1 9; mkToken EOF [] 2 1 ].
Proof.
  intros src line_body block_body rest Hl Hr Hb.
  split; [|split; [|split; [|split; [|split; [|reflexivity]]]]].
  - rewrite tokenize_spec. apply Forall_app. split.
    + apply emitted_no_whitespace.
    + repeat constructor. discriminate.
  - rewrite tokenize_spec, removelast_last. apply emitted_match_kind_value.
  - apply Forall_forall. intros m Hin Hname.
    assert (Hs : skipped m = false) by (unfold skipped; now rewrite Hname).
    split.
    + unfold match_kind_value. now rewrite Hname.
    + destruct (emitted_In _ (1, 1) m Hin Hs) as (l & c & H).
      exists l, c. rewrite tokenize_spec. apply in_or_app. left.
      now rewrite Hname in H.
  - apply lexes_at_intro with (name := "COMMENT"%string);
      [now apply match_at_line_comment|reflexivity|reflexivity].
  - intros rest'. apply lexes_at_intro with (name := "COMMENT"%string);
      [now apply match_at_block_comment|reflexivity|reflexivity].
Qed.

(** C1 at the line comment of [C1_input] and at the block comment
    [/* c */]. *)
Lemma C1_witness :
  forallb is_dot (str " trailing") = true
  /\ line_end [nl] = true
  /\ closes (str " c " ++ str "*") = false
  /\ Forall (fun t => type t <> WHITESPACE) (tokenize C1_input)
  /\ map kind_value (removelast (tokenize C1_input))
     = map match_kind_value (token_matches C1_input)
  /\ Forall (fun m =>
               lastgroup m = "COMMENT"%string ->
               match_kind_value m = (COMMENT, group m)
               /\ exists l c,
                    In (mkToken COMMENT (group m) l c) (tokenize C1_input))
            (finditer C1_input)
  /\ lexes_at (str "//" ++ str " trailing") COMMENT [nl]
  /\ lexes_first (str "/*" ++ str " c " ++ str "*/") COMMENT
  /\ tokenize C1_input
     = [ mkToken KEYWORD (str "int") 1 1; mkToken IDENTIFIER (str "x") 1 5;
         mkToken SEMICOLON (str ";") 1 7;
         mkToken COMMENT (str "// trailing") 1 9; mkToken EOF [] 2 1 ].
Proof.
  split; [reflexivity|]. split; [reflexivity|]. split; [reflexivity|].
  exact (C1_whitespace_suppressed_comment_kept
           C1_input (str " trailing") (str " c ") [nl]
           eq_refl eq_refl eq_refl).
Defined.
